(** * segbitset: a bitset on top of a segment tree of OR-summaries

    Shallow embedding of [segbitset.h] (class [segbitset<N>]) and the
    properties of its operations.  The backing [std::bitset<1 + (N << 2)>]
    is a list of booleans, [size_t] values are integers reduced modulo
    [2^64], and every slot access is bounds-checked by the model: an access
    outside the bit array is undefined behaviour in C++ and is reported as
    [Undefined] here. *)

From Stdlib Require Import ZArith Lia Bool List Sorted.
From stdpp Require Import base list.
Import ListNotations.

#[local] Open Scope Z_scope.
#[local] Unset Default Proof Using.

(** ** size_t arithmetic *)

Definition size_bits : Z := 64.
Definition size_mod : Z := 2 ^ size_bits.

(** Unsigned arithmetic wraps around modulo [2^64]. *)
Definition wrap (z : Z) : Z := z mod size_mod.

(** [x << 1] *)
Definition __ls (x : Z) : Z := wrap (Z.shiftl x 1).
(** [(x << 1) | 1] *)
Definition __rs (x : Z) : Z := Z.lor (wrap (Z.shiftl x 1)) 1.
(** [(l + r) >> 1] *)
Definition mid (l r : Z) : Z := Z.shiftr (wrap (l + r)) 1.
(** [x + 1] and [x - 1] on [size_t] *)
Definition incr (x : Z) : Z := wrap (x + 1).
Definition decr (x : Z) : Z := wrap (x - 1).
(** [x >> 1] *)
Definition parent (x : Z) : Z := Z.shiftr x 1.

(** ** Outcomes of a call *)

Inductive outcome (A : Type) : Type :=
| Ret (a : A)      (* normal return *)
| OutOfRange       (* std::out_of_range was thrown *)
| Undefined        (* a slot outside the bit array was accessed *)
| OutOfFuel.       (* the recursion budget of the model ran out *)

Arguments Ret {A} a.
Arguments OutOfRange {A}.
Arguments Undefined {A}.
Arguments OutOfFuel {A}.

Definition obind {A B} (o : outcome A) (k : A -> outcome B) : outcome B :=
  match o with
  | Ret a => k a
  | OutOfRange => OutOfRange
  | Undefined => Undefined
  | OutOfFuel => OutOfFuel
  end.

Notation "'let?' x := e 'in' k" := (obind e (fun x => k))
  (at level 10, x name, e at level 100, k at level 200).

(** ** The bit arrays *)

(** [std::bitset<K>]: a fixed-size array of bits. *)
Abbreviation bitset := (list bool).

(** [a[i]] as an rvalue. *)
Definition get (a : bitset) (i : Z) : outcome bool :=
  match a !! Z.to_nat i with
  | Some b => Ret b
  | None => Undefined
  end.

(** [a[i] = b]. *)
Definition put (a : bitset) (i : Z) (b : bool) : outcome bitset :=
  if decide (Z.to_nat i < length a)%nat then Ret (<[Z.to_nat i := b]> a)
  else Undefined.

(** [tree.size()], that is [1 + (N << 2)]. *)
Definition capacity (N : Z) : Z := wrap (1 + wrap (Z.shiftl N 2)).

(** The default-constructed [segbitset<N>]: every slot is zero. *)
Definition empty (N : Z) : bitset := replicate (Z.to_nat (capacity N)) false.

(** ** Stateful member functions

    A non-const member function transforms the tree of [*this]; the tree
    survives an exception. *)

Definition M (A : Type) : Type := bitset -> outcome A * bitset.

Definition ret {A} (a : A) : M A := fun t => (Ret a, t).

Definition bind {A B} (m : M A) (k : A -> M B) : M B :=
  fun t =>
    match m t with
    | (Ret a, t') => k a t'
    | (OutOfRange, t') => (OutOfRange, t')
    | (Undefined, t') => (Undefined, t')
    | (OutOfFuel, t') => (OutOfFuel, t')
    end.

Notation "x <- c1 ;; c2" := (bind c1 (fun x => c2))
  (at level 100, c1 at next level, right associativity).
Notation "c1 ;; c2" := (bind c1 (fun _ => c2))
  (at level 100, right associativity).

(** [tree[x]] as an rvalue. *)
Definition read (x : Z) : M bool := fun t => (get t x, t).

(** [tree[x] = b]. *)
Definition write (x : Z) (b : bool) : M unit :=
  fun t =>
    match put t x b with
    | Ret t' => (Ret tt, t')
    | OutOfRange => (OutOfRange, t)
    | Undefined => (Undefined, t)
    | OutOfFuel => (OutOfFuel, t)
    end.

(** A const computation run inside a non-const one. *)
Definition lift {A} (f : bitset -> outcome A) : M A := fun t => (f t, t).

Definition throw {A} : M A := fun t => (OutOfRange, t).
Definition out_of_fuel {A} : M A := fun t => (OutOfFuel, t).

(** The right operand of [&=], [|=], [^=]: a reference to another object,
    or to [*this] itself. *)
Inductive operand : Type :=
| This
| Other (o : bitset).

(** [other.tree[x]]. *)
Definition read_other (other : operand) (x : Z) : M bool :=
  match other with
  | This => read x
  | Other o => fun t => (get o x, t)
  end.

(** ** Private helpers *)

Definition __pushup (x : Z) : M unit :=
  a <- read (__ls x) ;;
  b <- read (__rs x) ;;
  write x (a || b).

Fixpoint __pushup_to_root (fuel : nat) (x : Z) : M unit :=
  match fuel with
  | O => out_of_fuel
  | S fuel =>
      if x =? 0 then ret tt
      else
        a <- read (__ls x) ;;
        b <- read (__rs x) ;;
        write x (a || b) ;;
        __pushup_to_root fuel (parent x)
  end.

Fixpoint __build (fuel : nat) (a : bitset) (l r x : Z) : M unit :=
  match fuel with
  | O => out_of_fuel
  | S fuel =>
      if l =? r then
        v <- lift (fun _ => get a (decr l)) ;;
        write x v
      else
        let m := mid l r in
        __build fuel a l m (__ls x) ;;
        __build fuel a (incr m) r (__rs x) ;;
        __pushup x
  end.

Fixpoint __count (fuel : nat) (l r x : Z) (t : bitset) : outcome Z :=
  match fuel with
  | O => OutOfFuel
  | S fuel =>
      let? b := get t x in
      if negb b then Ret 0
      else if l =? r then Ret 1
      else
        let m := mid l r in
        let? cl := __count fuel l m (__ls x) t in
        let? cr := __count fuel (incr m) r (__rs x) t in
        Ret (wrap (cl + cr))
  end.

Fixpoint __find (fuel : nat) (pos l r x : Z) : outcome Z :=
  match fuel with
  | O => OutOfFuel
  | S fuel =>
      if l =? r then Ret x
      else
        let m := mid l r in
        if pos <=? m then __find fuel pos l m (__ls x)
        else __find fuel pos (incr m) r (__rs x)
  end.

Fixpoint __all (fuel : nat) (l r x : Z) (t : bitset) : outcome bool :=
  match fuel with
  | O => OutOfFuel
  | S fuel =>
      let? b := get t x in
      if negb b then Ret false
      else if l =? r then get t x
      else
        let m := mid l r in
        let? al := __all fuel l m (__ls x) t in
        if al then __all fuel (incr m) r (__rs x) t else Ret false
  end.

Fixpoint __reset (fuel : nat) (l r x : Z) : M unit :=
  match fuel with
  | O => out_of_fuel
  | S fuel =>
      b <- read x ;;
      if negb b then ret tt
      else if l =? r then write x false
      else
        let m := mid l r in
        __reset fuel l m (__ls x) ;;
        __reset fuel (incr m) r (__rs x) ;;
        __pushup x
  end.

Fixpoint __flip (fuel : nat) (l r x : Z) : M unit :=
  match fuel with
  | O => out_of_fuel
  | S fuel =>
      if l =? r then
        b <- read x ;;
        write x (negb b)
      else
        let m := mid l r in
        __flip fuel l m (__ls x) ;;
        __flip fuel (incr m) r (__rs x) ;;
        __pushup x
  end.

(** [__equal]: the right child is entered with the arguments [r, m + 1],
    as in the source. *)
Fixpoint __equal (fuel : nat) (rhs : bitset) (l r x : Z) (t : bitset)
  : outcome bool :=
  match fuel with
  | O => OutOfFuel
  | S fuel =>
      let? a := get t x in
      let? b := get rhs x in
      if negb (Bool.eqb a b) then Ret false
      else if negb a && negb b then Ret true
      else if l =? r then Ret true
      else
        let m := mid l r in
        let? el := __equal fuel rhs l m (__ls x) t in
        if el then __equal fuel rhs r (incr m) (__rs x) t else Ret false
  end.

Fixpoint __and_assign (fuel : nat) (other : operand) (l r x : Z) : M unit :=
  match fuel with
  | O => out_of_fuel
  | S fuel =>
      b <- read x ;;
      if negb b then ret tt
      else if l =? r then
        a <- read x ;;
        o <- read_other other x ;;
        write x (a && o)
      else
        let m := mid l r in
        __and_assign fuel other l m (__ls x) ;;
        __and_assign fuel other (incr m) r (__rs x) ;;
        __pushup x
  end.

Fixpoint __or_assign (fuel : nat) (other : operand) (l r x : Z) : M unit :=
  match fuel with
  | O => out_of_fuel
  | S fuel =>
      b <- read_other other x ;;
      if negb b then ret tt
      else if l =? r then
        a <- read x ;;
        o <- read_other other x ;;
        write x (a || o)
      else
        let m := mid l r in
        __or_assign fuel other l m (__ls x) ;;
        __or_assign fuel other (incr m) r (__rs x) ;;
        __pushup x
  end.

Fixpoint __xor_assign (fuel : nat) (other : operand) (l r x : Z) : M unit :=
  match fuel with
  | O => out_of_fuel
  | S fuel =>
      b <- read_other other x ;;
      if negb b then ret tt
      else if l =? r then
        a <- read x ;;
        o <- read_other other x ;;
        write x (xorb a o)
      else
        let m := mid l r in
        __xor_assign fuel other l m (__ls x) ;;
        __xor_assign fuel other (incr m) r (__rs x) ;;
        __pushup x
  end.

(** [__to_bitset]: the tree is only read, the output bitset [a] is written. *)
Fixpoint __to_bitset (fuel : nat) (l r x : Z) (t : bitset) (a : bitset)
  : outcome bitset :=
  match fuel with
  | O => OutOfFuel
  | S fuel =>
      if l =? r then
        let? b := get t x in
        put a (decr l) b
      else
        let m := mid l r in
        let? a1 := __to_bitset fuel l m (__ls x) t a in
        __to_bitset fuel (incr m) r (__rs x) t a1
  end.

(** [__next]: [ans] is passed by reference; the new value is returned. *)
Fixpoint __next (fuel : nat) (pos l r x : Z) (t : bitset) (ans : Z)
  : outcome Z :=
  match fuel with
  | O => OutOfFuel
  | S fuel =>
      let? b := get t x in
      if negb b then Ret ans
      else if r <? pos then Ret ans
      else if l =? r then Ret l
      else
        let m := mid l r in
        let lx := __ls x in
        let rx := __rs x in
        let? ans1 :=
          (if ans =? 0 then
             let? bl := get t lx in
             if bl then __next fuel pos l m lx t ans else Ret ans
           else Ret ans) in
        if ans1 =? 0 then
          let? br := get t rx in
          if br then __next fuel pos (incr m) r rx t ans1 else Ret ans1
        else Ret ans1
  end.

(** [__foreach1]: the callback is modelled by the list of the positions it
    is called with, in call order. *)
Fixpoint __foreach1 (fuel : nat) (l r x : Z) (t : bitset) (cb : list Z)
  : outcome (list Z) :=
  match fuel with
  | O => OutOfFuel
  | S fuel =>
      let? b := get t x in
      if negb b then Ret cb
      else if l =? r then Ret (cb ++ [decr l])
      else
        let m := mid l r in
        let lx := __ls x in
        let rx := __rs x in
        let? bl := get t lx in
        let? cb1 := (if bl then __foreach1 fuel l m lx t cb else Ret cb) in
        let? br := get t rx in
        if br then __foreach1 fuel (incr m) r rx t cb1 else Ret cb1
  end.

(** ** Public interface

    The recursion budget handed to a helper is the number of positions: a
    range of [k] positions needs depth at most [k]. *)

Definition depth_fuel (N : Z) : nat := S (Z.to_nat N).

(** [segbitset(const std::bitset<N>& a)] *)
Definition of_bitset (N : Z) (a : bitset) : outcome unit * bitset :=
  __build (depth_fuel N) a 1 N 1 (empty N).

(** [segbitset(const __segbitset& o)] and [operator=]: the tree is copied. *)
Definition copy (o : bitset) : bitset := o.

Definition size (N : Z) : Z := N.

Definition count (N : Z) (t : bitset) : outcome Z :=
  __count (depth_fuel N) 1 N 1 t.

Definition test (N : Z) (pos : Z) (t : bitset) : outcome bool :=
  if N <=? pos then OutOfRange
  else
    let? x := __find (depth_fuel N) (incr pos) 1 N 1 in
    get t x.

Definition all (N : Z) (t : bitset) : outcome bool :=
  __all (depth_fuel N) 1 N 1 t.

Definition any (t : bitset) : outcome bool := get t 1.

Definition none (t : bitset) : outcome bool :=
  let? b := get t 1 in Ret (negb b).

(** [set()]: [tree.set()] turns every slot of the array on. *)
Definition set_all : M unit :=
  fun t => (Ret tt, replicate (length t) true).

(** [set(pos, value)] *)
Definition set (N : Z) (pos : Z) (value : bool) : M unit :=
  if N <=? pos then throw
  else
    x <- lift (fun _ => __find (depth_fuel N) (incr pos) 1 N 1) ;;
    write x true ;;
    __pushup_to_root (S (Z.to_nat (capacity N))) (parent x).

(** [reset()] *)
Definition reset_all (N : Z) : M unit :=
  __reset (depth_fuel N) 1 N 1.

(** [reset(pos)] *)
Definition reset (N : Z) (pos : Z) : M unit :=
  if N <=? pos then throw
  else
    x <- lift (fun _ => __find (depth_fuel N) (incr pos) 1 N 1) ;;
    write x false ;;
    __pushup_to_root (S (Z.to_nat (capacity N))) (parent x).

(** [flip()] *)
Definition flip_all (N : Z) : M unit :=
  __flip (depth_fuel N) 1 N 1.

(** [flip(pos)] *)
Definition flip (N : Z) (pos : Z) : M unit :=
  if N <=? pos then throw
  else
    x <- lift (fun _ => __find (depth_fuel N) (incr pos) 1 N 1) ;;
    b <- read x ;;
    write x (negb b) ;;
    __pushup_to_root (S (Z.to_nat (capacity N))) (parent x).

(** [operator==]; the descent of [__equal] at least doubles the slot index
    at every level, so a budget of the array size is never exhausted. *)
Definition equal (N : Z) (rhs : bitset) (t : bitset) : outcome bool :=
  __equal (S (Z.to_nat (capacity N))) rhs 1 N 1 t.

Definition and_assign (N : Z) (other : operand) : M unit :=
  __and_assign (depth_fuel N) other 1 N 1.

Definition or_assign (N : Z) (other : operand) : M unit :=
  __or_assign (depth_fuel N) other 1 N 1.

Definition xor_assign (N : Z) (other : operand) : M unit :=
  __xor_assign (depth_fuel N) other 1 N 1.

(** [operator~]: flips a copy. *)
Definition complement (N : Z) (t : bitset) : outcome unit * bitset :=
  flip_all N (copy t).

(** [to_bitset(std::bitset<N>& a)] *)
Definition to_bitset_into (N : Z) (t : bitset) (a : bitset) : outcome bitset :=
  __to_bitset (depth_fuel N) 1 N 1 t a.

(** [to_bitset()]: exports into a fresh, zero-initialised [std::bitset<N>]. *)
Definition to_bitset (N : Z) (t : bitset) : outcome bitset :=
  __to_bitset (depth_fuel N) 1 N 1 t (replicate (Z.to_nat N) false).

Definition first (N : Z) (t : bitset) : outcome Z :=
  let? ans := __next (depth_fuel N) 1 1 N 1 t 0 in
  Ret (if ans =? 0 then N else decr ans).

Definition next (N : Z) (pos : Z) (t : bitset) : outcome Z :=
  let pos := incr pos in
  let? ans := __next (depth_fuel N) (incr pos) 1 N 1 t 0 in
  Ret (if ans =? 0 then N else decr ans).

Definition foreach1 (N : Z) (t : bitset) : outcome (list Z) :=
  __foreach1 (depth_fuel N) 1 N 1 t [].

(** The loop [for (p = first(); p != size(); p = next(p))], collecting the
    positions it visits. *)
Fixpoint next_loop (fuel : nat) (N : Z) (t : bitset) (p : Z) : outcome (list Z) :=
  match fuel with
  | O => OutOfFuel
  | S fuel =>
      if p =? N then Ret []
      else
        let? q := next N p t in
        let? rest := next_loop fuel N t q in
        Ret (p :: rest)
  end.

Definition first_next_sequence (N : Z) (t : bitset) : outcome (list Z) :=
  let? p := first N t in
  next_loop (S (Z.to_nat N)) N t p.

(** Non-member [operator&], [operator|], [operator^]: the left operand is
    copied and combined in place with the right one. *)
Definition op_and (N : Z) (lhs rhs : bitset) : outcome unit * bitset :=
  and_assign N (Other rhs) (copy lhs).
Definition op_or (N : Z) (lhs rhs : bitset) : outcome unit * bitset :=
  or_assign N (Other rhs) (copy lhs).
Definition op_xor (N : Z) (lhs rhs : bitset) : outcome unit * bitset :=
  xor_assign N (Other rhs) (copy lhs).

(** [operator!=] *)
Definition not_equal (N : Z) (rhs : bitset) (t : bitset) : outcome bool :=
  let? b := equal N rhs t in Ret (negb b).

(** [operator[](size_t pos) const] *)
Definition index_const (N : Z) (pos : Z) (t : bitset) : outcome bool :=
  test N pos t.

(** ** Callers: the counting loops of [segbitset_benchmark.cc]

    Each loop increments the counter [cnt] once per set bit it meets. *)

(** [for (pos = s.first(); pos != s.size(); pos = s.next(pos)) ++cnt;] *)
Fixpoint count_loop (fuel : nat) (N : Z) (t : bitset) (p cnt : Z) : outcome Z :=
  match fuel with
  | O => OutOfFuel
  | S fuel =>
      if p =? size N then Ret cnt
      else
        let? q := next N p t in
        count_loop fuel N t q (incr cnt)
  end.

Definition bench_first_next (N : Z) (t : bitset) (cnt : Z) : outcome Z :=
  let? p := first N t in
  count_loop (S (Z.to_nat N)) N t p cnt.

(** [s.foreach1(cb)] with the callback [[&](size_t pos) { ++cnt; }]. *)
Definition bench_foreach (N : Z) (t : bitset) (cnt : Z) : outcome Z :=
  let? calls := foreach1 N t in
  Ret (fold_left (fun c _ => incr c) calls cnt).

(** [for (pos = 0; pos != b.size(); pos++) if (b[pos]) ++cnt;] on the
    dense [std::bitset]. *)
Definition bench_dense (b : bitset) (cnt : Z) : Z :=
  fold_left (fun c (x : bool) => if x then incr c else c) b cnt.

(** ** The reference handle

    [reference] holds the owning structure and the slot [x] of the leaf. *)

(** [operator[](size_t pos)] (non-const): creates the handle. *)
Definition index (N : Z) (pos : Z) : M Z :=
  if N <=? pos then throw
  else lift (fun _ => __find (depth_fuel N) (incr pos) 1 N 1).

(** [reference::operator=(bool value)] *)
Definition ref_assign (N : Z) (x : Z) (value : bool) : M unit :=
  write x value ;;
  __pushup_to_root (S (Z.to_nat (capacity N))) (parent x).

(** [reference::operator=(const reference&)]: reads slot [x] of the
    structure the right handle is bound to, where [x] is the slot of the
    handle assigned to. *)
Definition ref_assign_ref (N : Z) (x : Z) (src : operand) : M unit :=
  v <- read_other src x ;;
  write x v ;;
  __pushup_to_root (S (Z.to_nat (capacity N))) (parent x).

(** [reference::operator~]: [auto b = s.tree[x] = !s.tree[x]] makes [b]
    the bitset's own proxy for slot [x]; it is converted to [bool], that
    is the slot is read, at the [return]. *)
Definition ref_not (N : Z) (x : Z) : M bool :=
  v <- read x ;;
  write x (negb v) ;;
  __pushup_to_root (S (Z.to_nat (capacity N))) (parent x) ;;
  read x.

(** [reference::operator bool] *)
Definition ref_bool (x : Z) (t : bitset) : outcome bool := get t x.

(** [reference::flip] *)
Definition ref_flip (x : Z) : M unit :=
  v <- read x ;;
  write x (negb v).

(** * Specification vocabulary *)

(** [seg cap l r x]: the node at slot [x] covers the positions [l..r], and
    it and all its descendants lie inside an array of [cap] slots, with no
    [size_t] overflow in the index arithmetic. *)
Inductive seg (cap : Z) : Z -> Z -> Z -> Prop :=
| seg_leaf l x :
    1 <= l -> 2 * l < size_mod -> 1 <= x < cap -> seg cap l l x
| seg_node l r x :
    1 <= l < r -> 2 * r < size_mod -> 1 <= x < cap -> 2 * x + 1 < size_mod ->
    seg cap l ((l + r) / 2) (2 * x) ->
    seg cap ((l + r) / 2 + 1) r (2 * x + 1) ->
    seg cap l r x.

(** [under x y]: slot [y] is [x] or one of its descendants. *)
Inductive under (x : Z) : Z -> Prop :=
| under_refl : under x x
| under_ls y : under x y -> under x (2 * y)
| under_rs y : under x y -> under x (2 * y + 1).

(** Every slot that is not [x] or below it keeps its value. *)
Definition same_outside (x : Z) (t t' : bitset) : Prop :=
  length t' = length t /\
  forall i : nat, ~ under x (Z.of_nat i) -> t' !! i = t !! i.

(** Every slot at [x] or below keeps its value. *)
Definition same_under (x : Z) (t t' : bitset) : Prop :=
  forall i : nat, under x (Z.of_nat i) -> t' !! i = t !! i.

(** [leaves t l r x bs]: the leaves below the node [x] covering [l..r]
    hold, from left to right, the bits [bs]. *)
Inductive leaves (t : bitset) : Z -> Z -> Z -> list bool -> Prop :=
| leaves_leaf l x b :
    t !! Z.to_nat x = Some b -> leaves t l l x [b]
| leaves_node l r x bl br :
    l < r ->
    leaves t l ((l + r) / 2) (2 * x) bl ->
    leaves t ((l + r) / 2 + 1) r (2 * x + 1) br ->
    leaves t l r x (bl ++ br).

(** [inv t l r x]: the summary property at every internal node of the
    subtree at [x]: [tree[x] == tree[2x] | tree[2x+1]]. *)
Inductive inv (t : bitset) : Z -> Z -> Z -> Prop :=
| inv_leaf l x : inv t l l x
| inv_node l r x a b :
    l < r ->
    inv t l ((l + r) / 2) (2 * x) ->
    inv t ((l + r) / 2 + 1) r (2 * x + 1) ->
    t !! Z.to_nat (2 * x) = Some a ->
    t !! Z.to_nat (2 * x + 1) = Some b ->
    t !! Z.to_nat x = Some (a || b) ->
    inv t l r x.

(** The OR of a list of bits. *)
Definition any_of (bs : list bool) : bool := existsb id bs.

(** The common postcondition of the recursive mutators on the subtree at
    [x]: normal return, nothing outside the subtree touched, the leaves now
    hold [bs], and the summary property holds throughout the subtree. *)
Definition post (l r x : Z) (t : bitset) (bs : list bool)
  (res : outcome unit * bitset) : Prop :=
  exists t', res = (Ret tt, t') /\ same_outside x t t' /\
             leaves t' l r x bs /\ inv t' l r x.

(** The bits of [a] at the 1-indexed positions [l..r]. *)
Definition slice (a : bitset) (l r : Z) : bitset :=
  take (Z.to_nat (r - l + 1)) (drop (Z.to_nat (l - 1)) a).

(** [a] with the 1-indexed positions [l..r] overwritten by [bs]. *)
Definition overwrite (a : bitset) (l r : Z) (bs : list bool) : bitset :=
  take (Z.to_nat (l - 1)) a ++ bs ++ drop (Z.to_nat r) a.

(** A structure of [N] positions: the array has [1 + 4N] slots, which is
    representable in [size_t]. *)
Definition sized (N : Z) (t : bitset) : Prop :=
  1 <= N /\ 4 * N + 1 < size_mod /\ Z.of_nat (length t) = 4 * N + 1.

(** [bits N t bs]: the observable bits of [t] are [bs]. *)
Definition bits (N : Z) (t : bitset) (bs : list bool) : Prop := leaves t 1 N 1 bs.

(** The summary property at every internal node of the tree. *)
Definition summary_inv (N : Z) (t : bitset) : Prop := inv t 1 N 1.

(** What the right operand of a pairwise operation holds below node [x]:
    the bits [cs], with a tree that satisfies the summary property.  When
    the operand is [*this] it is the tree being modified. *)
Definition operand_view (cap : Z) (other : operand) (t : bitset)
  (l r x : Z) (cs : list bool) : Prop :=
  match other with
  | This => leaves t l r x cs
  | Other o => Z.of_nat (length o) = cap /\ leaves o l r x cs /\ inv o l r x
  end.

(** The ascending list of the indices, counted from [p], at which [bs] is
    true. *)
Fixpoint true_from (p : Z) (bs : list bool) : list Z :=
  match bs with
  | [] => []
  | b :: bs' => if b then p :: true_from (p + 1) bs' else true_from (p + 1) bs'
  end.

Definition true_indices (v : list bool) : list Z := true_from 0 v.

(** The first 1-indexed position [>= pos] at which [bs], whose head is
    position [q], is true; [0] if there is none. *)
Fixpoint first_from (pos q : Z) (bs : list bool) : Z :=
  match bs with
  | [] => 0
  | b :: bs' => if b && (pos <=? q) then q else first_from pos (q + 1) bs'
  end.

(** A structure in order: right size, summary property, observable bits. *)
Definition valid (N : Z) (t : bitset) (bs : list bool) : Prop :=
  sized N t /\ bits N t bs /\ summary_inv N t.

(** The right operand of a pairwise operation: [*this], or another
    structure of the same size that is in order. *)
Definition operand_valid (N : Z) (other : operand) (bs cs : list bool) : Prop :=
  match other with
  | This => cs = bs
  | Other o => valid N o cs
  end.

(** What [first] and [next] return for the answer of [__next]. *)
Definition found (N ans : Z) : Z := if ans =? 0 then N else ans - 1.

(** A small structure used to instantiate the statements below:
    [segbitset<2>] built from the bits [1, 0]. *)
Definition sample2 : bitset :=
  [false; true; true; false; false; false; false; false; false].

(** The weaker postcondition that says nothing about summaries. *)
Definition post_bits (l r x : Z) (t : bitset) (bs : list bool)
  (res : outcome unit * bitset) : Prop :=
  exists t', res = (Ret tt, t') /\ same_outside x t t' /\ leaves t' l r x bs.

(** The right operand holds the bits [cs] below node [x]; nothing is
    assumed about its summaries. *)
Definition operand_bits (cap : Z) (other : operand) (t : bitset)
  (l r x : Z) (cs : list bool) : Prop :=
  match other with
  | This => leaves t l r x cs
  | Other o => Z.of_nat (length o) = cap /\ leaves o l r x cs
  end.

(** A structure of [N] positions whose summaries are in place and whose
    export is the vector [bs]. *)
Definition in_order (N : Z) (t : bitset) (bs : list bool) : Prop :=
  sized N t /\ summary_inv N t /\ to_bitset N t = Ret bs.

(** The number of true bits of a vector. *)
Definition ones (bs : list bool) : Z := Z.of_nat (length (true_indices bs)).

(** A second small structure: [segbitset<2>] built from the bits [1, 1]. *)
Definition sample2b : bitset :=
  [false; true; true; true; false; false; false; false; false].

(** [q] is the lowest position above [p] at which [bs] is true, or [N] if
    there is none. *)
Definition least_set_after (bs : list bool) (N p q : Z) : Prop :=
  (q = N /\ forall i, p < i -> bs !! Z.to_nat i <> Some true) \/
  (p < q < N /\ bs !! Z.to_nat q = Some true /\
   forall i, p < i < q -> bs !! Z.to_nat i <> Some true).

(** * Properties *)

(** ** size_t arithmetic without overflow *)

Lemma wrap_small z : 0 <= z < size_mod -> wrap z = z.
Proof. intros H. unfold wrap. apply Z.mod_small. exact H. Qed.

Lemma ls_small x : 0 <= x -> 2 * x < size_mod -> __ls x = 2 * x.
Proof.
  intros H0 H1. unfold __ls. rewrite Z.shiftl_mul_pow2 by lia.
  change (2 ^ 1) with 2. rewrite wrap_small by lia. lia.
Qed.

Lemma lor_double_1 z : 0 <= z -> Z.lor (2 * z) 1 = 2 * z + 1.
Proof.
  intros H. destruct z as [|p|p]; [reflexivity| |lia].
  reflexivity.
Qed.

Lemma rs_small x : 0 <= x -> 2 * x + 1 < size_mod -> __rs x = 2 * x + 1.
Proof.
  intros H0 H1. unfold __rs. rewrite Z.shiftl_mul_pow2 by lia.
  change (2 ^ 1) with 2. rewrite wrap_small by lia.
  rewrite Z.mul_comm. apply lor_double_1. exact H0.
Qed.

Lemma mid_small l r : 0 <= l + r < size_mod -> mid l r = (l + r) / 2.
Proof.
  intros H. unfold mid. rewrite wrap_small by exact H.
  rewrite Z.shiftr_div_pow2 by lia. reflexivity.
Qed.

Lemma incr_small x : 0 <= x -> x + 1 < size_mod -> incr x = x + 1.
Proof. intros H0 H1. unfold incr. apply wrap_small. lia. Qed.

Lemma decr_small x : 1 <= x < size_mod -> decr x = x - 1.
Proof. intros H. unfold decr. apply wrap_small. lia. Qed.

Lemma parent_div x : parent x = x / 2.
Proof. unfold parent. rewrite Z.shiftr_div_pow2 by lia. reflexivity. Qed.

Lemma capacity_small N : 0 <= N -> 4 * N + 1 < size_mod -> capacity N = 4 * N + 1.
Proof.
  intros H0 H1. unfold capacity. rewrite Z.shiftl_mul_pow2 by lia.
  change (2 ^ 2) with 4. rewrite (wrap_small (N * 4)) by lia.
  rewrite wrap_small by lia. lia.
Qed.

Lemma mid_bounds l r : l < r -> l <= (l + r) / 2 < r.
Proof. intros H. split; [apply Z.div_le_lower_bound | apply Z.div_lt_upper_bound]; lia. Qed.

(** ** Shape of the tree *)

Lemma seg_slot cap l r x : seg cap l r x -> 1 <= x < cap.
Proof. destruct 1; lia. Qed.

(** A range of at most [2^k] positions rooted at [x] fits below
    [(x + 1) * 2^k]. *)
Lemma seg_fits cap (k : nat) : forall l r x,
  1 <= l <= r -> r - l + 1 <= 2 ^ Z.of_nat k -> 2 * r < size_mod ->
  1 <= x -> (x + 1) * 2 ^ Z.of_nat k <= cap -> cap <= size_mod ->
  seg cap l r x.
Proof.
  induction k as [|k IH]; intros l r x Hlr Hlen Hr Hx Hcap Hmod.
  - change (2 ^ Z.of_nat 0) with 1 in *.
    assert (l = r) as -> by lia. apply seg_leaf; lia.
  - rewrite Nat2Z.inj_succ, Z.pow_succ_r in * by lia.
    pose proof (Z.pow_pos_nonneg 2 (Z.of_nat k) ltac:(lia) ltac:(lia)) as Hp.
    set (p := 2 ^ Z.of_nat k) in *.
    destruct (Z.eq_dec l r) as [->|Hne].
    + apply seg_leaf; nia.
    + pose proof (mid_bounds l r ltac:(lia)) as Hm.
      assert (2 * ((l + r) / 2) <= l + r) by (apply Z.mul_div_le; lia).
      assert (l + r < 2 * ((l + r) / 2) + 2).
      { pose proof (Z.mod_pos_bound (l + r) 2 ltac:(lia)).
        pose proof (Z.div_mod (l + r) 2 ltac:(lia)). lia. }
      apply seg_node; try lia; try nia.
      * apply IH; try lia; nia.
      * apply IH; try lia; nia.
Qed.

(** The [4N] bound: the whole tree over [1..N] rooted at slot 1 fits in
    [1 + 4N] slots. *)
Lemma seg_root N : 1 <= N -> 4 * N + 1 < size_mod -> seg (4 * N + 1) 1 N 1.
Proof.
  intros HN Hmod.
  destruct (Z.eq_dec N 1) as [->|Hne].
  { apply seg_leaf; lia. }
  pose proof (Z.log2_up_spec N ltac:(lia)) as [Hlo Hhi].
  pose proof (Z.log2_up_nonneg N) as Hk.
  assert (0 < Z.log2_up N) as Hk1 by (apply Z.log2_up_pos; lia).
  apply (seg_fits _ (Z.to_nat (Z.log2_up N))); try lia.
  - rewrite Z2Nat.id by lia. lia.
  - rewrite Z2Nat.id by lia.
    replace (Z.log2_up N) with (Z.succ (Z.pred (Z.log2_up N))) by lia.
    rewrite Z.pow_succ_r by lia. lia.
Qed.

Lemma under_ge x y : 1 <= x -> under x y -> x <= y.
Proof. intros Hx. induction 1; lia. Qed.

Lemma under_child_l x y : under (2 * x) y -> under x y.
Proof. induction 1; [apply under_ls, under_refl | apply under_ls | apply under_rs]; assumption. Qed.

Lemma under_child_r x y : under (2 * x + 1) y -> under x y.
Proof. induction 1; [apply under_rs, under_refl | apply under_ls | apply under_rs]; assumption. Qed.

Lemma under_disjoint x y : 1 <= x -> under (2 * x) y -> under (2 * x + 1) y -> False.
Proof.
  intros Hx H. induction H as [|y H IH|y H IH]; intros H'.
  - apply under_ge in H'; lia.
  - inversion H' as [E|z Hz E|z Hz E]; try lia.
    assert (z = y) as -> by lia. auto.
  - inversion H' as [E|z Hz E|z Hz E]; try lia.
    + assert (y = x) as -> by lia. apply under_ge in H; lia.
    + assert (z = y) as -> by lia. auto.
Qed.

Create HintDb seg.
#[local] Hint Resolve under_refl under_child_l under_child_r : seg.

(** ** Slot access and sequencing *)

Lemma get_some (t : bitset) x b : t !! Z.to_nat x = Some b -> get t x = Ret b.
Proof. intros H. unfold get. rewrite H. reflexivity. Qed.

Lemma get_in_range (t : bitset) x :
  0 <= x < Z.of_nat (length t) -> exists b, t !! Z.to_nat x = Some b.
Proof.
  intros H. destruct (lookup_lt_is_Some_2 t (Z.to_nat x)) as [b Hb]; [lia|].
  exists b. exact Hb.
Qed.

Lemma put_ok (a : bitset) i b :
  0 <= i < Z.of_nat (length a) -> put a i b = Ret (<[Z.to_nat i := b]> a).
Proof. intros H. unfold put. destruct (decide _); [reflexivity | lia]. Qed.

Lemma bind_eq {A B} (m : M A) (k : A -> M B) t a t' :
  m t = (Ret a, t') -> bind m k t = k a t'.
Proof. intros H. unfold bind. rewrite H. reflexivity. Qed.

Lemma bind_read {B} x (k : bool -> M B) (t : bitset) b :
  t !! Z.to_nat x = Some b -> bind (read x) k t = k b t.
Proof. intros H. apply bind_eq. unfold read. rewrite (get_some _ _ _ H). reflexivity. Qed.

Lemma write_ok (t : bitset) x b :
  0 <= x < Z.of_nat (length t) -> write x b t = (Ret tt, <[Z.to_nat x := b]> t).
Proof. intros H. unfold write. rewrite put_ok by exact H. reflexivity. Qed.

Lemma bind_write {B} x b (k : unit -> M B) (t : bitset) :
  0 <= x < Z.of_nat (length t) -> bind (write x b) k t = k tt (<[Z.to_nat x := b]> t).
Proof. intros H. apply bind_eq. apply write_ok. exact H. Qed.

Lemma pushup_ok (t : bitset) x a b :
  0 <= x < Z.of_nat (length t) -> 2 * x + 1 < size_mod ->
  t !! Z.to_nat (2 * x) = Some a -> t !! Z.to_nat (2 * x + 1) = Some b ->
  __pushup x t = (Ret tt, <[Z.to_nat x := a || b]> t).
Proof.
  intros Hx Hm Ha Hb. unfold __pushup.
  rewrite ls_small, rs_small by lia.
  rewrite (bind_read _ _ _ _ Ha), (bind_read _ _ _ _ Hb).
  apply write_ok. exact Hx.
Qed.

(** ** Frames: which slots an operation leaves alone *)

Lemma same_outside_refl x t : same_outside x t t.
Proof. split; reflexivity. Qed.

Lemma same_outside_trans x t1 t2 t3 :
  same_outside x t1 t2 -> same_outside x t2 t3 -> same_outside x t1 t3.
Proof.
  intros [L1 H1] [L2 H2]. split; [congruence|].
  intros i Hi. rewrite H2, H1 by exact Hi. reflexivity.
Qed.

Lemma same_outside_l x t t' : same_outside (2 * x) t t' -> same_outside x t t'.
Proof. intros [L H]. split; [exact L|]. intros i Hi. apply H. auto with seg. Qed.

Lemma same_outside_r x t t' : same_outside (2 * x + 1) t t' -> same_outside x t t'.
Proof. intros [L H]. split; [exact L|]. intros i Hi. apply H. auto with seg. Qed.

Lemma same_outside_insert x (t : bitset) b :
  0 <= x -> same_outside x t (<[Z.to_nat x := b]> t).
Proof.
  intros Hx. split; [apply length_insert|].
  intros i Hi. apply list_lookup_insert_ne. intros <-. apply Hi.
  rewrite Z2Nat.id by exact Hx. apply under_refl.
Qed.

Lemma same_under_refl x t : same_under x t t.
Proof. intros i _. reflexivity. Qed.

Lemma same_under_l x t t' : same_under x t t' -> same_under (2 * x) t t'.
Proof. intros H i Hi. apply H. auto with seg. Qed.

Lemma same_under_r x t t' : same_under x t t' -> same_under (2 * x + 1) t t'.
Proof. intros H i Hi. apply H. auto with seg. Qed.

(** What happens below the right child does not reach the left subtree,
    and conversely; a write to [x] reaches neither. *)
Lemma outside_r_under_l x t t' :
  1 <= x -> same_outside (2 * x + 1) t t' -> same_under (2 * x) t t'.
Proof. intros Hx [_ H] i Hi. apply H. intros Hr. exact (under_disjoint x _ Hx Hi Hr). Qed.

Lemma outside_l_under_r x t t' :
  1 <= x -> same_outside (2 * x) t t' -> same_under (2 * x + 1) t t'.
Proof. intros Hx [_ H] i Hi. apply H. intros Hl. exact (under_disjoint x _ Hx Hl Hi). Qed.

Lemma insert_under_l x (t : bitset) b :
  1 <= x -> same_under (2 * x) t (<[Z.to_nat x := b]> t).
Proof.
  intros Hx i Hi. apply list_lookup_insert_ne. intros <-.
  apply under_ge in Hi; lia.
Qed.

Lemma insert_under_r x (t : bitset) b :
  1 <= x -> same_under (2 * x + 1) t (<[Z.to_nat x := b]> t).
Proof.
  intros Hx i Hi. apply list_lookup_insert_ne. intros <-.
  apply under_ge in Hi; lia.
Qed.

Lemma same_under_slot x t t' :
  0 <= x -> same_under x t t' -> t' !! Z.to_nat x = t !! Z.to_nat x.
Proof. intros Hx H. apply H. rewrite Z2Nat.id by exact Hx. apply under_refl. Qed.

#[local] Hint Resolve same_outside_refl same_outside_l same_outside_r
  same_outside_insert same_under_refl same_under_l same_under_r
  outside_r_under_l outside_l_under_r insert_under_l insert_under_r : seg.

(** ** Contents and summaries of a subtree *)

Lemma any_of_app bs cs : any_of (bs ++ cs) = any_of bs || any_of cs.
Proof. apply existsb_app. Qed.

Lemma leaves_length t l r x bs :
  leaves t l r x bs -> l <= r /\ Z.of_nat (length bs) = r - l + 1.
Proof.
  induction 1 as [l x b H | l r x bl br Hlr _ [? IH1] _ [? IH2]].
  - simpl. lia.
  - rewrite length_app. lia.
Qed.

Lemma leaves_fun t l r x bs : leaves t l r x bs -> forall cs, leaves t l r x cs -> bs = cs.
Proof.
  induction 1 as [l x b H | l r x bl br Hlr _ IH1 _ IH2]; intros cs Hc.
  - inversion Hc; subst; [congruence | lia].
  - inversion Hc; subst; [lia|]. f_equal; auto.
Qed.

Lemma leaves_same t t' l r x bs :
  1 <= x -> same_under x t t' -> leaves t l r x bs -> leaves t' l r x bs.
Proof.
  intros Hx Hs H. revert Hx Hs.
  induction H as [l x b H | l r x bl br Hlr _ IH1 _ IH2]; intros Hx Hs.
  - apply leaves_leaf. rewrite (same_under_slot x t t') by (lia || assumption). exact H.
  - apply leaves_node; [exact Hlr | apply IH1 | apply IH2]; auto with seg; lia.
Qed.

Lemma inv_same t t' l r x :
  1 <= x -> same_under x t t' -> inv t l r x -> inv t' l r x.
Proof.
  intros Hx Hs H. revert Hx Hs.
  induction H as [l x | l r x a b Hlr _ IH1 _ IH2 Ha Hb Hab]; intros Hx Hs.
  - apply inv_leaf.
  - apply (inv_node _ _ _ _ a b); [exact Hlr | apply IH1 | apply IH2 | | |];
      auto with seg; try lia.
    + rewrite (same_under_slot _ t t'); [exact Ha | lia | auto with seg].
    + rewrite (same_under_slot _ t t'); [exact Hb | lia | auto with seg].
    + rewrite (same_under_slot _ t t'); [exact Hab | lia | auto with seg].
Qed.

(** Every node's summary is the OR of the leaves below it. *)
Lemma inv_summary t l r x bs :
  inv t l r x -> leaves t l r x bs -> t !! Z.to_nat x = Some (any_of bs).
Proof.
  intros Hi Hl. revert Hi.
  induction Hl as [l x b H | l r x bl br Hlr _ IH1 _ IH2]; intros Hi.
  - rewrite H. unfold any_of. simpl. rewrite orb_false_r. reflexivity.
  - inversion Hi as [|l' r' x' a b _ Hil Hir Ha Hb Hab]; subst; [lia|].
    rewrite (IH1 Hil) in Ha. rewrite (IH2 Hir) in Hb.
    rewrite any_of_app. congruence.
Qed.

(** Leaves exist wherever the shape fits into the array. *)
Lemma leaves_exist cap l r x (t : bitset) :
  seg cap l r x -> Z.of_nat (length t) = cap -> exists bs, leaves t l r x bs.
Proof.
  intros Hs Hlen. induction Hs as [l x ? ? Hx | l r x ? ? ? ? _ [bl IH1] _ [br IH2]].
  - destruct (get_in_range t x ltac:(lia)) as [b Hb].
    exists [b]. apply leaves_leaf. exact Hb.
  - exists (bl ++ br). apply leaves_node; [lia | exact IH1 | exact IH2].
Qed.

(** ** Recomputing a summary after both children are done *)

Lemma node_seq cap l r x (c1 c2 : M unit) (t : bitset) bl br :
  1 <= l < r -> 1 <= x < cap -> 2 * x + 1 < cap -> 2 * x + 1 < size_mod ->
  Z.of_nat (length t) = cap ->
  post l ((l + r) / 2) (2 * x) t bl (c1 t) ->
  (forall t1, same_outside (2 * x) t t1 ->
              post ((l + r) / 2 + 1) r (2 * x + 1) t1 br (c2 t1)) ->
  post l r x t (bl ++ br) ((c1 ;; c2 ;; __pushup x) t).
Proof.
  intros Hlr Hx Hx2 Hm Hlen (t1 & E1 & S1 & L1 & I1) H2.
  destruct (H2 t1 S1) as (t2 & E2 & S2 & L2 & I2).
  rewrite (bind_eq _ _ _ _ _ E1), (bind_eq _ _ _ _ _ E2).
  assert (length t2 = length t) as Hlen2 by (destruct S1, S2; congruence).
  destruct (get_in_range t2 (2 * x) ltac:(lia)) as [a Ha].
  destruct (get_in_range t2 (2 * x + 1) ltac:(lia)) as [b Hb].
  rewrite (pushup_ok t2 x a b) by (assumption || lia).
  eexists. split; [reflexivity|].
  assert (same_under (2 * x) t1 t2) as U12 by (apply outside_r_under_l; [lia | exact S2]).
  split; [|split].
  - eapply same_outside_trans; [apply same_outside_l, S1|].
    eapply same_outside_trans; [apply same_outside_r, S2|].
    apply same_outside_insert. lia.
  - apply leaves_node; [lia| |].
    + eapply leaves_same; [lia | apply insert_under_l; lia |].
      eapply leaves_same; [lia | exact U12 | exact L1].
    + eapply leaves_same; [lia | apply insert_under_r; lia | exact L2].
  - apply (inv_node _ _ _ _ a b); [lia | | | | |].
    + eapply inv_same; [lia | apply insert_under_l; lia |].
      eapply inv_same; [lia | exact U12 | exact I1].
    + eapply inv_same; [lia | apply insert_under_r; lia | exact I2].
    + rewrite list_lookup_insert_ne by lia. exact Ha.
    + rewrite list_lookup_insert_ne by lia. exact Hb.
    + apply list_lookup_insert_eq. lia.
Qed.

(** A write to a leaf slot. *)
Lemma leaf_write cap l x (t : bitset) b :
  1 <= x < cap -> Z.of_nat (length t) = cap ->
  post l l x t [b] (write x b t).
Proof.
  intros Hx Hlen. rewrite write_ok by lia.
  eexists. split; [reflexivity|]. split; [|split].
  - apply same_outside_insert. lia.
  - apply leaves_leaf. apply list_lookup_insert_eq. lia.
  - apply inv_leaf.
Qed.

(** A pruned return: the subtree is left as it is. *)
Lemma post_skip l r x (t : bitset) bs :
  leaves t l r x bs -> inv t l r x -> post l r x t bs (ret tt t).
Proof. intros L I. exists t. auto with seg. Qed.

(** ** Dense vectors *)

Lemma slice_leaf (a : bitset) l :
  1 <= l <= Z.of_nat (length a) ->
  exists b, a !! Z.to_nat (l - 1) = Some b /\ slice a l l = [b].
Proof.
  intros H. destruct (get_in_range a (l - 1) ltac:(lia)) as [b Hb].
  exists b. split; [exact Hb|]. unfold slice.
  replace (Z.to_nat (l - l + 1)) with 1%nat by lia.
  rewrite (drop_S _ _ _ Hb). reflexivity.
Qed.

Lemma slice_app (a : bitset) l m r :
  1 <= l <= m -> m < r ->
  slice a l r = slice a l m ++ slice a (m + 1) r.
Proof.
  intros H1 H2. unfold slice.
  replace (Z.to_nat (r - l + 1)) with (Z.to_nat (m - l + 1) + Z.to_nat (r - (m + 1) + 1))%nat by lia.
  replace (Z.to_nat (m + 1 - 1)) with (Z.to_nat (l - 1) + Z.to_nat (m - l + 1))%nat by lia.
  rewrite <- drop_drop.
  generalize (drop (Z.to_nat (l - 1)) a) as d.
  generalize (Z.to_nat (m - l + 1)) as n, (Z.to_nat (r - (m + 1) + 1)) as k.
  induction n as [|n IH]; intros k d; [reflexivity|].
  destruct d as [|b d]; simpl; [rewrite take_nil; reflexivity|].
  f_equal. apply IH.
Qed.

Lemma slice_all (a : bitset) : slice a 1 (Z.of_nat (length a)) = a.
Proof.
  unfold slice. simpl. rewrite drop_0. apply take_ge. lia.
Qed.

(** ** Construction from a dense vector *)

Lemma build_ok cap a l r x :
  seg cap l r x -> r <= Z.of_nat (length a) ->
  forall fuel t, (Z.to_nat (r - l) < fuel)%nat -> Z.of_nat (length t) = cap ->
  post l r x t (slice a l r) (__build fuel a l r x t).
Proof.
  induction 1 as [l x Hl Hl2 Hx | l r x Hlr Hr Hx Hx2 Hs1 IH1 Hs2 IH2];
    intros Ha fuel t Hfuel Hlen; (destruct fuel as [|fuel]; [lia|]); simpl.
  - rewrite Z.eqb_refl. rewrite decr_small by lia.
    destruct (slice_leaf a l ltac:(lia)) as (b & Hb & ->).
    unfold lift at 1. rewrite (get_some _ _ _ Hb).
    change (post l l x t [b] (write x b t)).
    apply (leaf_write cap); assumption.
  - pose proof (mid_bounds l r ltac:(lia)) as Hm.
    pose proof (seg_slot _ _ _ _ Hs2) as Hx3.
    rewrite (proj2 (Z.eqb_neq l r)) by lia.
    rewrite mid_small, incr_small, ls_small, rs_small by lia.
    rewrite (slice_app a l ((l + r) / 2) r) by lia.
    apply (node_seq cap); try lia.
    + apply IH1; lia.
    + intros t1 [L1 _]. apply IH2; lia.
Qed.

(** ** Export to a dense vector *)

Lemma overwrite_all (a bs : bitset) :
  overwrite a 1 (Z.of_nat (length a)) bs = bs.
Proof.
  unfold overwrite. simpl. rewrite Nat2Z.id, drop_all, app_nil_r. reflexivity.
Qed.

Lemma overwrite_length (a bs : bitset) l r :
  1 <= l <= r -> r <= Z.of_nat (length a) -> Z.of_nat (length bs) = r - l + 1 ->
  length (overwrite a l r bs) = length a.
Proof.
  intros H1 H2 H3. unfold overwrite.
  rewrite !length_app, length_take, length_drop. lia.
Qed.

Lemma overwrite_leaf (a : bitset) l b :
  1 <= l <= Z.of_nat (length a) ->
  <[Z.to_nat (l - 1) := b]> a = overwrite a l l [b].
Proof.
  intros H. unfold overwrite.
  rewrite insert_take_drop by lia. simpl.
  replace (S (Z.to_nat (l - 1))) with (Z.to_nat l) by lia. reflexivity.
Qed.

Lemma overwrite_app (a bl br : bitset) l m r :
  1 <= l <= m -> m < r -> r <= Z.of_nat (length a) ->
  Z.of_nat (length bl) = m - l + 1 ->
  overwrite (overwrite a l m bl) (m + 1) r br = overwrite a l r (bl ++ br).
Proof.
  intros H1 H2 H3 H4. unfold overwrite.
  replace (m + 1 - 1) with m by lia.
  assert (length (take (Z.to_nat (l - 1)) a ++ bl) = Z.to_nat m) as Hlen.
  { rewrite length_app, length_take. lia. }
  rewrite (app_assoc (take _ a) bl).
  rewrite take_app_length' by (symmetry; exact Hlen).
  rewrite drop_app_ge by lia. rewrite Hlen, drop_drop.
  replace (Z.to_nat m + (Z.to_nat r - Z.to_nat m))%nat with (Z.to_nat r) by lia.
  rewrite <- !app_assoc. reflexivity.
Qed.

Lemma to_bitset_ok cap l r x (t : bitset) :
  seg cap l r x ->
  forall bs, leaves t l r x bs ->
  forall fuel (a : bitset), (Z.to_nat (r - l) < fuel)%nat -> r <= Z.of_nat (length a) ->
  __to_bitset fuel l r x t a = Ret (overwrite a l r bs).
Proof.
  induction 1 as [l x Hl Hl2 Hx | l r x Hlr Hr Hx Hx2 Hs1 IH1 Hs2 IH2];
    intros bs Hbs fuel a Hfuel Ha; (destruct fuel as [|fuel]; [lia|]); simpl.
  - inversion Hbs as [l' x' b Hb | ]; subst; [|lia].
    rewrite Z.eqb_refl, (get_some _ _ _ Hb). simpl.
    rewrite decr_small by lia. rewrite put_ok by lia.
    rewrite overwrite_leaf by lia. reflexivity.
  - inversion Hbs as [ | l' r' x' bl br _ Hbl Hbr]; subst; [lia|].
    pose proof (mid_bounds l r ltac:(lia)) as Hm.
    rewrite (proj2 (Z.eqb_neq l r)) by lia.
    rewrite mid_small, incr_small, ls_small, rs_small by lia.
    pose proof (leaves_length _ _ _ _ _ Hbl) as [_ Hll].
    pose proof (leaves_length _ _ _ _ _ Hbr) as [_ Hlr'].
    rewrite (IH1 bl Hbl) by lia. simpl.
    rewrite (IH2 br Hbr); [|lia|rewrite overwrite_length; lia].
    rewrite overwrite_app by lia. reflexivity.
Qed.

(** ** Locating a leaf *)

Lemma find_ok cap l r x :
  seg cap l r x ->
  forall pos fuel, l <= pos <= r -> (Z.to_nat (r - l) < fuel)%nat ->
  exists y, __find fuel pos l r x = Ret y /\ under x y /\ 1 <= y < cap /\
            forall (t : bitset) bs, leaves t l r x bs ->
              t !! Z.to_nat y = bs !! Z.to_nat (pos - l).
Proof.
  induction 1 as [l x Hl Hl2 Hx | l r x Hlr Hr Hx Hx2 Hs1 IH1 Hs2 IH2];
    intros pos fuel Hpos Hfuel; (destruct fuel as [|fuel]; [lia|]); simpl.
  - rewrite Z.eqb_refl. exists x. split; [reflexivity|].
    split; [apply under_refl|]. split; [lia|].
    intros t bs Hbs. inversion Hbs; subst; [|lia].
    replace (pos - l) with 0 by lia. simpl. assumption.
  - pose proof (mid_bounds l r ltac:(lia)) as Hm.
    rewrite (proj2 (Z.eqb_neq l r)) by lia.
    rewrite mid_small, incr_small, ls_small, rs_small by lia.
    destruct (Z.leb_spec pos ((l + r) / 2)) as [Hle|Hgt].
    + destruct (IH1 pos fuel ltac:(lia) ltac:(lia)) as (y & E & U & B & L).
      exists y. split; [exact E|]. split; [auto with seg|]. split; [exact B|].
      intros t bs Hbs. inversion Hbs as [ | l' r' x' bl br _ Hbl Hbr]; subst; [lia|].
      pose proof (leaves_length _ _ _ _ _ Hbl) as [_ Hll].
      rewrite (L t bl Hbl). symmetry. apply lookup_app_l. lia.
    + destruct (IH2 pos fuel ltac:(lia) ltac:(lia)) as (y & E & U & B & L).
      exists y. split; [exact E|]. split; [auto with seg|]. split; [exact B|].
      intros t bs Hbs. inversion Hbs as [ | l' r' x' bl br _ Hbl Hbr]; subst; [lia|].
      pose proof (leaves_length _ _ _ _ _ Hbl) as [_ Hll].
      rewrite (L t br Hbr). rewrite lookup_app_r by lia. f_equal. lia.
Qed.

(** ** The whole structure *)

Lemma sized_seg N t : sized N t -> seg (Z.of_nat (length t)) 1 N 1.
Proof. intros (H1 & H2 & ->). apply seg_root; assumption. Qed.

Lemma sized_bits N t : sized N t -> exists bs, bits N t bs.
Proof. intros H. apply (leaves_exist _ _ _ _ _ (sized_seg _ _ H) eq_refl). Qed.

Lemma bits_length N t bs : 1 <= N -> bits N t bs -> Z.of_nat (length bs) = N.
Proof. intros HN H. apply leaves_length in H. lia. Qed.

Lemma sized_empty N : 1 <= N -> 4 * N + 1 < size_mod -> sized N (empty N).
Proof.
  intros H1 H2. split; [exact H1|]. split; [exact H2|].
  unfold empty. rewrite length_replicate, capacity_small by lia. lia.
Qed.

Lemma depth_fuel_enough N : 1 <= N -> (Z.to_nat (N - 1) < depth_fuel N)%nat.
Proof. unfold depth_fuel. lia. Qed.

(** [test] reads the bit that [bits] lists at that position. *)
Lemma test_bits N t bs pos :
  sized N t -> bits N t bs -> 0 <= pos < N ->
  exists b, test N pos t = Ret b /\ bs !! Z.to_nat pos = Some b.
Proof.
  intros Hs Hb Hpos. pose proof Hs as (H1 & H2 & H3).
  unfold test. rewrite (proj2 (Z.leb_gt N pos)) by lia.
  rewrite incr_small by lia.
  destruct (find_ok _ _ _ _ (sized_seg _ _ Hs) (pos + 1) (depth_fuel N)
              ltac:(lia) (depth_fuel_enough N H1)) as (y & E & _ & B & L).
  rewrite E. simpl.
  destruct (get_in_range t y ltac:(lia)) as [b Hy].
  exists b. split; [apply get_some; exact Hy|].
  rewrite <- Hy, (L t bs Hb). f_equal. lia.
Qed.

Lemma of_bitset_ok N (a : bitset) :
  1 <= N -> 4 * N + 1 < size_mod -> Z.of_nat (length a) = N ->
  exists t, of_bitset N a = (Ret tt, t) /\ sized N t /\ bits N t a /\ summary_inv N t.
Proof.
  intros H1 H2 Ha. pose proof (sized_empty N H1 H2) as Hs.
  destruct (build_ok _ a _ _ _ (sized_seg _ _ Hs) ltac:(lia) (depth_fuel N) (empty N)
              (depth_fuel_enough N H1) eq_refl) as (t & E & [L _] & Hl & Hi).
  exists t. split; [exact E|]. split; [|split; [|exact Hi]].
  - destruct Hs as (_ & _ & Hlen). repeat split; try assumption. lia.
  - unfold bits. rewrite <- Ha in Hl at 2. rewrite slice_all in Hl. exact Hl.
Qed.

Lemma to_bitset_into_ok N t bs (a : bitset) :
  sized N t -> bits N t bs -> Z.of_nat (length a) = N ->
  to_bitset_into N t a = Ret bs.
Proof.
  intros Hs Hb Ha. pose proof Hs as (H1 & H2 & H3). unfold to_bitset_into.
  rewrite (to_bitset_ok _ _ _ _ _ (sized_seg _ _ Hs) bs Hb) by (unfold depth_fuel; lia).
  rewrite <- Ha, overwrite_all. reflexivity.
Qed.

Lemma to_bitset_bits N t bs : sized N t -> bits N t bs -> to_bitset N t = Ret bs.
Proof.
  intros Hs Hb. destruct Hs as (H1 & H2 & H3).
  apply (to_bitset_into_ok N t bs (replicate (Z.to_nat N) false)); [done|done|].
  rewrite length_replicate. lia.
Qed.

(** ** Whole-structure reset and flip *)

Lemma any_of_false bs : any_of bs = false -> bs = replicate (length bs) false.
Proof.
  induction bs as [|b bs IH]; [reflexivity|].
  unfold any_of. simpl. intros H. apply orb_false_iff in H as [-> H].
  f_equal. apply IH. exact H.
Qed.

Lemma reset_ok cap l r x :
  seg cap l r x ->
  forall fuel (t : bitset) bs, (Z.to_nat (r - l) < fuel)%nat -> Z.of_nat (length t) = cap ->
  leaves t l r x bs -> inv t l r x ->
  post l r x t (replicate (length bs) false) (__reset fuel l r x t).
Proof.
  induction 1 as [l x Hl Hl2 Hx | l r x Hlr Hr Hx Hx2 Hs1 IH1 Hs2 IH2];
    intros fuel t bs Hfuel Hlen Hbs Hi; (destruct fuel as [|fuel]; [lia|]); simpl;
    rewrite (bind_read _ _ _ _ (inv_summary _ _ _ _ _ Hi Hbs));
    (destruct (any_of bs) eqn:Hany; simpl;
     [| rewrite <- (any_of_false bs Hany); apply post_skip; assumption]).
  - rewrite Z.eqb_refl. inversion Hbs; subst; [|lia]. apply (leaf_write (Z.of_nat (length t))); (lia || reflexivity).
  - pose proof (mid_bounds l r ltac:(lia)) as Hm.
    pose proof (seg_slot _ _ _ _ Hs2) as Hx3.
    rewrite (proj2 (Z.eqb_neq l r)) by lia.
    rewrite mid_small, incr_small, ls_small, rs_small by lia.
    inversion Hbs as [ | l' r' x' bl br _ Hbl Hbr]; subst; [lia|].
    inversion Hi as [ | l' r' x' a b _ Hil Hir _ _ _]; subst; [lia|].
    rewrite length_app, replicate_add.
    apply (node_seq (Z.of_nat (length t))); try lia.
    + apply IH1; (lia || assumption).
    + intros t1 S1. pose proof (outside_l_under_r x t t1 ltac:(lia) S1) as U.
      destruct S1 as [L1 _].
      apply IH2; try lia.
      * eapply leaves_same; [lia | exact U | exact Hbr].
      * eapply inv_same; [lia | exact U | exact Hir].
Qed.

Lemma flip_ok cap l r x :
  seg cap l r x ->
  forall fuel (t : bitset) bs, (Z.to_nat (r - l) < fuel)%nat -> Z.of_nat (length t) = cap ->
  leaves t l r x bs ->
  post l r x t (map negb bs) (__flip fuel l r x t).
Proof.
  induction 1 as [l x Hl Hl2 Hx | l r x Hlr Hr Hx Hx2 Hs1 IH1 Hs2 IH2];
    intros fuel t bs Hfuel Hlen Hbs; (destruct fuel as [|fuel]; [lia|]); simpl.
  - rewrite Z.eqb_refl. inversion Hbs as [l' x' b Hb | ]; subst; [|lia].
    rewrite (bind_read _ _ _ _ Hb). apply (leaf_write (Z.of_nat (length t))); (lia || reflexivity).
  - pose proof (mid_bounds l r ltac:(lia)) as Hm.
    pose proof (seg_slot _ _ _ _ Hs2) as Hx3.
    rewrite (proj2 (Z.eqb_neq l r)) by lia.
    rewrite mid_small, incr_small, ls_small, rs_small by lia.
    inversion Hbs as [ | l' r' x' bl br _ Hbl Hbr]; subst; [lia|].
    rewrite map_app.
    apply (node_seq (Z.of_nat (length t))); try lia.
    + apply IH1; (lia || assumption).
    + intros t1 S1. pose proof (outside_l_under_r x t t1 ltac:(lia) S1) as U.
      destruct S1 as [L1 _].
      apply IH2; try lia.
      eapply leaves_same; [lia | exact U | exact Hbr].
Qed.

(** ** Pairwise combination *)

Lemma view_summary cap other (t : bitset) l r x cs :
  operand_view cap other t l r x cs -> inv t l r x ->
  read_other other x t = (Ret (any_of cs), t).
Proof.
  destruct other as [|o]; simpl.
  - intros Hl Hi. unfold read. rewrite (get_some _ _ _ (inv_summary _ _ _ _ _ Hi Hl)). reflexivity.
  - intros (_ & Hl & Hi) _. rewrite (get_some _ _ _ (inv_summary _ _ _ _ _ Hi Hl)). reflexivity.
Qed.

Lemma view_leaf cap other (t : bitset) l x cs :
  operand_view cap other t l l x cs ->
  exists c, cs = [c] /\ read_other other x t = (Ret c, t).
Proof.
  destruct other as [|o]; simpl.
  - intros Hl. inversion Hl as [l' x' b Hb | ]; subst; [|lia].
    exists b. split; [reflexivity|]. unfold read. rewrite (get_some _ _ _ Hb). reflexivity.
  - intros (_ & Hl & _). inversion Hl as [l' x' b Hb | ]; subst; [|lia].
    exists b. split; [reflexivity|]. rewrite (get_some _ _ _ Hb). reflexivity.
Qed.

Lemma view_node cap other (t : bitset) l r x cs :
  l < r -> 1 <= x -> operand_view cap other t l r x cs ->
  exists cl cr, cs = cl ++ cr /\
    Z.of_nat (length cl) = (l + r) / 2 - l + 1 /\
    operand_view cap other t l ((l + r) / 2) (2 * x) cl /\
    forall t1, same_under (2 * x + 1) t t1 ->
               operand_view cap other t1 ((l + r) / 2 + 1) r (2 * x + 1) cr.
Proof.
  intros Hlr Hx. destruct other as [|o]; simpl.
  - intros Hl. inversion Hl as [ | l' r' x' cl cr _ Hcl Hcr]; subst; [lia|].
    exists cl, cr. split; [reflexivity|].
    split; [apply leaves_length in Hcl; lia|]. split; [exact Hcl|].
    intros t1 U. eapply leaves_same; [lia | exact U | exact Hcr].
  - intros (Hlen & Hl & Hi).
    inversion Hl as [ | l' r' x' cl cr _ Hcl Hcr]; subst; [lia|].
    inversion Hi as [ | l' r' x' a b _ Hil Hir _ _ _]; subst; [lia|].
    exists cl, cr. split; [reflexivity|].
    split; [apply leaves_length in Hcl; lia|]. auto.
Qed.

Lemma zip_and_false (bs cs : list bool) :
  length bs = length cs -> any_of bs = false -> zip_with andb bs cs = bs.
Proof.
  revert cs. induction bs as [|b bs IH]; intros [|c cs] Hlen H; try discriminate; [reflexivity|].
  unfold any_of in H. simpl in H. apply orb_false_iff in H as [-> H].
  simpl. f_equal. apply IH; [simpl in Hlen; lia | exact H].
Qed.

Lemma zip_or_false (bs cs : list bool) :
  length bs = length cs -> any_of cs = false -> zip_with orb bs cs = bs.
Proof.
  revert cs. induction bs as [|b bs IH]; intros [|c cs] Hlen H; try discriminate; [reflexivity|].
  unfold any_of in H. simpl in H. apply orb_false_iff in H as [-> H].
  simpl. rewrite orb_false_r. f_equal. apply IH; [simpl in Hlen; lia | exact H].
Qed.

Lemma zip_xor_false (bs cs : list bool) :
  length bs = length cs -> any_of cs = false -> zip_with xorb bs cs = bs.
Proof.
  revert cs. induction bs as [|b bs IH]; intros [|c cs] Hlen H; try discriminate; [reflexivity|].
  unfold any_of in H. simpl in H. apply orb_false_iff in H as [-> H].
  simpl. rewrite xorb_false_r. f_equal. apply IH; [simpl in Hlen; lia | exact H].
Qed.

Lemma view_length cap other (t : bitset) l r x bs cs :
  leaves t l r x bs -> operand_view cap other t l r x cs -> length bs = length cs.
Proof.
  intros Hb Hv. apply leaves_length in Hb as [_ Hb].
  destruct other as [|o]; simpl in Hv; [|destruct Hv as (_ & Hv & _)];
    apply leaves_length in Hv as [_ Hv]; lia.
Qed.

(** The node case shared by the three pairwise operations. *)
Ltac pairwise_node cap IH1 IH2 Hbs Hi Hv :=
  match type of Hbs with
  | leaves ?t ?l ?r ?x _ =>
      pose proof (mid_bounds l r ltac:(lia));
      rewrite (proj2 (Z.eqb_neq l r)) by lia;
      rewrite mid_small, incr_small, ls_small, rs_small by lia;
      let bl := fresh "bl" in let br := fresh "br" in
      let Hbl := fresh "Hbl" in let Hbr := fresh "Hbr" in
      let Hil := fresh "Hil" in let Hir := fresh "Hir" in
      inversion Hbs as [ | ? ? ? bl br _ Hbl Hbr]; subst; [lia|];
      inversion Hi as [ | ? ? ? ? ? _ Hil Hir _ _ _]; subst; [lia|];
      let cl := fresh "cl" in let cr := fresh "cr" in
      let Hcl := fresh "Hcl" in let Hvl := fresh "Hvl" in let Hvr := fresh "Hvr" in
      destruct (view_node _ _ _ l r x _ ltac:(lia) ltac:(lia) Hv)
        as (cl & cr & -> & Hcl & Hvl & Hvr);
      rewrite zip_with_app by (apply leaves_length in Hbl; lia);
      apply (node_seq (Z.of_nat (length t))); try lia;
      [ apply IH1; (lia || assumption)
      | let t1 := fresh "t1" in let S1 := fresh "S1" in let U := fresh "U" in
        intros t1 S1;
        pose proof (outside_l_under_r x t t1 ltac:(lia) S1) as U;
        destruct S1 as [? _];
        apply IH2; try lia;
        [ eapply leaves_same; [lia | exact U | exact Hbr]
        | eapply inv_same; [lia | exact U | exact Hir]
        | apply Hvr; exact U ] ]
  end.

Lemma and_assign_ok cap l r x :
  seg cap l r x ->
  forall other fuel (t : bitset) bs cs,
  (Z.to_nat (r - l) < fuel)%nat -> Z.of_nat (length t) = cap ->
  leaves t l r x bs -> inv t l r x -> operand_view cap other t l r x cs ->
  post l r x t (zip_with andb bs cs) (__and_assign fuel other l r x t).
Proof.
  induction 1 as [l x Hl Hl2 Hx | l r x Hlr Hr Hx Hx2 Hs1 IH1 Hs2 IH2];
    intros other fuel t bs cs Hfuel Hlen Hbs Hi Hv;
    (destruct fuel as [|fuel]; [lia|]); simpl;
    pose proof (view_length _ _ _ _ _ _ _ _ Hbs Hv) as Hlens;
    rewrite (bind_read _ _ _ _ (inv_summary _ _ _ _ _ Hi Hbs));
    (destruct (any_of bs) eqn:Hany; simpl;
     [| rewrite zip_and_false by assumption; apply post_skip; assumption]).
  - rewrite Z.eqb_refl. inversion Hbs as [l' x' b Hb | ]; subst; [|lia].
    destruct (view_leaf _ _ _ _ _ _ Hv) as (c & -> & Hc).
    rewrite (bind_read _ _ _ _ Hb), (bind_eq _ _ _ _ _ Hc).
    apply (leaf_write (Z.of_nat (length t))); (lia || reflexivity).
  - pose proof (seg_slot _ _ _ _ Hs2) as Hx3.
    pairwise_node cap IH1 IH2 Hbs Hi Hv.
Qed.

Lemma or_assign_ok cap l r x :
  seg cap l r x ->
  forall other fuel (t : bitset) bs cs,
  (Z.to_nat (r - l) < fuel)%nat -> Z.of_nat (length t) = cap ->
  leaves t l r x bs -> inv t l r x -> operand_view cap other t l r x cs ->
  post l r x t (zip_with orb bs cs) (__or_assign fuel other l r x t).
Proof.
  induction 1 as [l x Hl Hl2 Hx | l r x Hlr Hr Hx Hx2 Hs1 IH1 Hs2 IH2];
    intros other fuel t bs cs Hfuel Hlen Hbs Hi Hv;
    (destruct fuel as [|fuel]; [lia|]); simpl;
    pose proof (view_length _ _ _ _ _ _ _ _ Hbs Hv) as Hlens;
    rewrite (bind_eq _ _ _ _ _ (view_summary _ _ _ _ _ _ _ Hv Hi));
    (destruct (any_of cs) eqn:Hany; simpl;
     [| rewrite zip_or_false by assumption; apply post_skip; assumption]).
  - rewrite Z.eqb_refl. inversion Hbs as [l' x' b Hb | ]; subst; [|lia].
    destruct (view_leaf _ _ _ _ _ _ Hv) as (c & -> & Hc).
    rewrite (bind_read _ _ _ _ Hb), (bind_eq _ _ _ _ _ Hc).
    apply (leaf_write (Z.of_nat (length t))); (lia || reflexivity).
  - pose proof (seg_slot _ _ _ _ Hs2) as Hx3.
    pairwise_node cap IH1 IH2 Hbs Hi Hv.
Qed.

Lemma xor_assign_ok cap l r x :
  seg cap l r x ->
  forall other fuel (t : bitset) bs cs,
  (Z.to_nat (r - l) < fuel)%nat -> Z.of_nat (length t) = cap ->
  leaves t l r x bs -> inv t l r x -> operand_view cap other t l r x cs ->
  post l r x t (zip_with xorb bs cs) (__xor_assign fuel other l r x t).
Proof.
  induction 1 as [l x Hl Hl2 Hx | l r x Hlr Hr Hx Hx2 Hs1 IH1 Hs2 IH2];
    intros other fuel t bs cs Hfuel Hlen Hbs Hi Hv;
    (destruct fuel as [|fuel]; [lia|]); simpl;
    pose proof (view_length _ _ _ _ _ _ _ _ Hbs Hv) as Hlens;
    rewrite (bind_eq _ _ _ _ _ (view_summary _ _ _ _ _ _ _ Hv Hi));
    (destruct (any_of cs) eqn:Hany; simpl;
     [| rewrite zip_xor_false by assumption; apply post_skip; assumption]).
  - rewrite Z.eqb_refl. inversion Hbs as [l' x' b Hb | ]; subst; [|lia].
    destruct (view_leaf _ _ _ _ _ _ Hv) as (c & -> & Hc).
    rewrite (bind_read _ _ _ _ Hb), (bind_eq _ _ _ _ _ Hc).
    apply (leaf_write (Z.of_nat (length t))); (lia || reflexivity).
  - pose proof (seg_slot _ _ _ _ Hs2) as Hx3.
    pairwise_node cap IH1 IH2 Hbs Hi Hv.
Qed.

(** *** An operand that holds the same bits

    [&=] and [|=] with an operand that holds the same bits as [*this] keep
    the bits, whatever the summaries say. *)

Lemma node_seq_bits cap l r x (c1 c2 : M unit) (t : bitset) bl br :
  1 <= l < r -> 1 <= x < cap -> 2 * x + 1 < cap -> 2 * x + 1 < size_mod ->
  Z.of_nat (length t) = cap ->
  post_bits l ((l + r) / 2) (2 * x) t bl (c1 t) ->
  (forall t1, same_outside (2 * x) t t1 ->
              post_bits ((l + r) / 2 + 1) r (2 * x + 1) t1 br (c2 t1)) ->
  post_bits l r x t (bl ++ br) ((c1 ;; c2 ;; __pushup x) t).
Proof.
  intros Hlr Hx Hx2 Hm Hlen (t1 & E1 & S1 & L1) H2.
  destruct (H2 t1 S1) as (t2 & E2 & S2 & L2).
  rewrite (bind_eq _ _ _ _ _ E1), (bind_eq _ _ _ _ _ E2).
  assert (length t2 = length t) as Hlen2 by (destruct S1, S2; congruence).
  destruct (get_in_range t2 (2 * x) ltac:(lia)) as [a Ha].
  destruct (get_in_range t2 (2 * x + 1) ltac:(lia)) as [b Hb].
  rewrite (pushup_ok t2 x a b) by (assumption || lia).
  eexists. split; [reflexivity|]. split.
  - eapply same_outside_trans; [apply same_outside_l, S1|].
    eapply same_outside_trans; [apply same_outside_r, S2|].
    apply same_outside_insert. lia.
  - apply leaves_node; [lia| |].
    + eapply leaves_same; [lia | apply insert_under_l; lia |].
      eapply leaves_same; [lia | apply outside_r_under_l; [lia | exact S2] | exact L1].
    + eapply leaves_same; [lia | apply insert_under_r; lia | exact L2].
Qed.

Lemma post_bits_skip l r x (t : bitset) bs :
  leaves t l r x bs -> post_bits l r x t bs (ret tt t).
Proof. intros L. exists t. auto with seg. Qed.

Lemma leaf_rewrite cap l x (t : bitset) b :
  1 <= x < cap -> Z.of_nat (length t) = cap -> t !! Z.to_nat x = Some b ->
  post_bits l l x t [b] (write x b t).
Proof.
  intros Hx Hlen Hb. rewrite write_ok by lia.
  eexists. split; [reflexivity|]. split.
  - apply same_outside_insert. lia.
  - apply leaves_leaf. apply list_lookup_insert_eq. lia.
Qed.

Lemma operand_bits_slot cap other (t : bitset) l r x cs :
  seg cap l r x -> Z.of_nat (length t) = cap -> operand_bits cap other t l r x cs ->
  exists b, read_other other x t = (Ret b, t).
Proof.
  intros Hs Hlen Hv. pose proof (seg_slot _ _ _ _ Hs) as Hx.
  destruct other as [|o]; simpl in *.
  - destruct (get_in_range t x ltac:(lia)) as [b Hb]. exists b.
    unfold read. rewrite (get_some _ _ _ Hb). reflexivity.
  - destruct Hv as [Ho _]. destruct (get_in_range o x ltac:(lia)) as [b Hb].
    exists b. rewrite (get_some _ _ _ Hb). reflexivity.
Qed.

Lemma operand_bits_leaf cap other (t : bitset) l x b c :
  t !! Z.to_nat x = Some b -> operand_bits cap other t l l x [c] ->
  read_other other x t = (Ret c, t).
Proof.
  intros Hb. destruct other as [|o]; simpl.
  - intros Hl. inversion Hl as [l' x' c' Hc | ]; [|lia].
    unfold read. rewrite (get_some _ _ _ Hc). reflexivity.
  - intros (_ & Hl). inversion Hl as [l' x' c' Hc | ]; [|lia].
    rewrite (get_some _ _ _ Hc). reflexivity.
Qed.

Lemma operand_bits_node cap other (t : bitset) l r x bl br :
  l < r -> 1 <= x ->
  leaves t l ((l + r) / 2) (2 * x) bl ->
  operand_bits cap other t l r x (bl ++ br) ->
  operand_bits cap other t l ((l + r) / 2) (2 * x) bl /\
  forall t1, same_under (2 * x + 1) t t1 ->
             operand_bits cap other t1 ((l + r) / 2 + 1) r (2 * x + 1) br.
Proof.
  intros Hlr Hx Hbl Hv.
  assert (forall o, leaves o l r x (bl ++ br) ->
            leaves o l ((l + r) / 2) (2 * x) bl /\
            leaves o ((l + r) / 2 + 1) r (2 * x + 1) br) as Hsplit.
  { intros o Hl. inversion Hl as [l' x' c Hc E1 E2 E3 | l' r' x' cl cr _ Hcl Hcr E1 E2 E3 E4]; [lia|].
    apply leaves_length in Hbl as [_ Hbl].
    pose proof (leaves_length _ _ _ _ _ Hcl) as [_ Hcl'].
    apply app_inj_1 in E4 as [-> ->]; [split; assumption | lia]. }
  destruct other as [|o]; simpl in *.
  - destruct (Hsplit t Hv) as [H1 H2]. split; [exact H1|].
    intros t1 U. eapply leaves_same; [lia | exact U | exact H2].
  - destruct Hv as [Ho Hl]. destruct (Hsplit o Hl) as [H1 H2]. auto.
Qed.

(** The node case shared by [&=] and [|=] on equal bits. *)
Ltac same_bits_node IH1 IH2 Hbs Hv :=
  match type of Hbs with
  | leaves ?t ?l ?r ?x _ =>
      pose proof (mid_bounds l r ltac:(lia));
      rewrite (proj2 (Z.eqb_neq l r)) by lia;
      rewrite mid_small, incr_small, ls_small, rs_small by lia;
      let bl := fresh "bl" in let br := fresh "br" in
      let Hbl := fresh "Hbl" in let Hbr := fresh "Hbr" in
      inversion Hbs as [ | ? ? ? bl br _ Hbl Hbr]; subst; [lia|];
      let Hvl := fresh "Hvl" in let Hvr := fresh "Hvr" in
      destruct (operand_bits_node _ _ _ l r x bl br ltac:(lia) ltac:(lia) Hbl Hv)
        as [Hvl Hvr];
      apply (node_seq_bits (Z.of_nat (length t))); try lia;
      [ apply IH1; (lia || assumption)
      | let t1 := fresh "t1" in let S1 := fresh "S1" in let U := fresh "U" in
        intros t1 S1;
        pose proof (outside_l_under_r x t t1 ltac:(lia) S1) as U;
        destruct S1 as [? _];
        apply IH2; try lia;
        [ eapply leaves_same; [lia | exact U | exact Hbr]
        | apply Hvr; exact U ] ]
  end.

Lemma and_assign_same cap l r x :
  seg cap l r x ->
  forall other fuel (t : bitset) bs,
  (Z.to_nat (r - l) < fuel)%nat -> Z.of_nat (length t) = cap ->
  leaves t l r x bs -> operand_bits cap other t l r x bs ->
  post_bits l r x t bs (__and_assign fuel other l r x t).
Proof.
  induction 1 as [l x Hl Hl2 Hx | l r x Hlr Hr Hx Hx2 Hs1 IH1 Hs2 IH2];
    intros other fuel t bs Hfuel Hlen Hbs Hv;
    (destruct fuel as [|fuel]; [lia|]); simpl;
    (destruct (get_in_range t x ltac:(lia)) as [s Hsum]);
    rewrite (bind_read _ _ _ _ Hsum);
    (destruct s; simpl; [| apply post_bits_skip; assumption]).
  - rewrite Z.eqb_refl. inversion Hbs as [l' x' b Hb | ]; [|lia]. subst l' x' bs.
    rewrite (bind_read _ _ _ _ Hb).
    rewrite (bind_eq _ _ _ _ _ (operand_bits_leaf _ _ _ _ _ _ _ Hb Hv)).
    rewrite andb_diag. apply (leaf_rewrite cap); assumption.
  - pose proof (seg_slot _ _ _ _ Hs2) as Hx3.
    same_bits_node IH1 IH2 Hbs Hv.
Qed.

Lemma or_assign_same cap l r x :
  seg cap l r x ->
  forall other fuel (t : bitset) bs,
  (Z.to_nat (r - l) < fuel)%nat -> Z.of_nat (length t) = cap ->
  leaves t l r x bs -> operand_bits cap other t l r x bs ->
  post_bits l r x t bs (__or_assign fuel other l r x t).
Proof.
  induction 1 as [l x Hl Hl2 Hx | l r x Hlr Hr Hx Hx2 Hs1 IH1 Hs2 IH2];
    intros other fuel t bs Hfuel Hlen Hbs Hv;
    (destruct fuel as [|fuel]; [lia|]); simpl.
  - destruct (operand_bits_slot cap other t l l x bs) as [s Hsum];
      [apply seg_leaf; assumption | assumption | assumption |].
    rewrite (bind_eq _ _ _ _ _ Hsum).
    destruct s; simpl; [| apply post_bits_skip; assumption].
    rewrite Z.eqb_refl. inversion Hbs as [l' x' b Hb | ]; [|lia]. subst l' x' bs.
    rewrite (bind_read _ _ _ _ Hb).
    rewrite (bind_eq _ _ _ _ _ (operand_bits_leaf _ _ _ _ _ _ _ Hb Hv)).
    rewrite orb_diag. apply (leaf_rewrite cap); assumption.
  - destruct (operand_bits_slot cap other t l r x bs) as [s Hsum];
      [apply seg_node; assumption | assumption | assumption |].
    rewrite (bind_eq _ _ _ _ _ Hsum).
    destruct s; simpl; [| apply post_bits_skip; assumption].
    pose proof (seg_slot _ _ _ _ Hs2) as Hx3.
    same_bits_node IH1 IH2 Hbs Hv.
Qed.

(** ** Point mutation: write a leaf, then recompute the path to the root *)

Lemma parent_ls x : parent (2 * x) = x.
Proof. rewrite parent_div. symmetry. apply (Z.div_unique _ _ _ 0); lia. Qed.

Lemma parent_rs x : parent (2 * x + 1) = x.
Proof. rewrite parent_div. symmetry. apply (Z.div_unique _ _ _ 1); lia. Qed.

Lemma pushup_to_root_step fuel x (t : bitset) a b :
  1 <= x < Z.of_nat (length t) -> 2 * x + 1 < size_mod ->
  t !! Z.to_nat (2 * x) = Some a -> t !! Z.to_nat (2 * x + 1) = Some b ->
  __pushup_to_root (S fuel) x t =
  __pushup_to_root fuel (parent x) (<[Z.to_nat x := a || b]> t).
Proof.
  intros Hx Hm Ha Hb. simpl.
  rewrite (proj2 (Z.eqb_neq x 0)) by lia.
  rewrite ls_small, rs_small by lia.
  rewrite (bind_read _ _ _ _ Ha), (bind_read _ _ _ _ Hb).
  rewrite bind_write by lia. reflexivity.
Qed.

(** Closing a node after its two subtrees are done. *)
Lemma node_close_leaves l r x (t : bitset) bl br c :
  l < r -> 1 <= x ->
  leaves t l ((l + r) / 2) (2 * x) bl ->
  leaves t ((l + r) / 2 + 1) r (2 * x + 1) br ->
  leaves (<[Z.to_nat x := c]> t) l r x (bl ++ br).
Proof.
  intros Hlr Hx L1 L2. apply leaves_node; [lia| |].
  - eapply leaves_same; [lia | apply insert_under_l; lia | exact L1].
  - eapply leaves_same; [lia | apply insert_under_r; lia | exact L2].
Qed.

Lemma node_close_inv l r x (t : bitset) a b :
  l < r -> 1 <= x < Z.of_nat (length t) ->
  inv t l ((l + r) / 2) (2 * x) -> inv t ((l + r) / 2 + 1) r (2 * x + 1) ->
  t !! Z.to_nat (2 * x) = Some a -> t !! Z.to_nat (2 * x + 1) = Some b ->
  inv (<[Z.to_nat x := a || b]> t) l r x.
Proof.
  intros Hlr Hx I1 I2 Ha Hb.
  apply (inv_node _ _ _ _ a b); [lia | | | | |].
  - eapply inv_same; [lia | apply insert_under_l; lia | exact I1].
  - eapply inv_same; [lia | apply insert_under_r; lia | exact I2].
  - rewrite list_lookup_insert_ne by lia. exact Ha.
  - rewrite list_lookup_insert_ne by lia. exact Hb.
  - apply list_lookup_insert_eq. lia.
Qed.

(** Writing [b] to the leaf of [pos] and walking up from its parent: after
    [k] iterations the loop stands at the parent of [x]; the subtree at [x]
    then holds the old bits with the one bit replaced, and it satisfies the
    summary property if it did before. *)
Lemma leaf_update_ok cap l r x :
  seg cap l r x ->
  forall pos (t : bitset) bs b ffuel,
  l <= pos <= r -> (Z.to_nat (r - l) < ffuel)%nat ->
  Z.of_nat (length t) = cap -> leaves t l r x bs ->
  exists y k t',
    __find ffuel pos l r x = Ret y /\ 1 <= y < cap /\
    t !! Z.to_nat y = bs !! Z.to_nat (pos - l) /\
    (k <= Z.to_nat (r - l))%nat /\
    (forall fuel, __pushup_to_root (k + fuel) (parent y) (<[Z.to_nat y := b]> t)
                  = __pushup_to_root fuel (parent x) t') /\
    same_outside x t t' /\
    leaves t' l r x (<[Z.to_nat (pos - l) := b]> bs) /\
    (inv t l r x -> inv t' l r x).
Proof.
  induction 1 as [l x Hl Hl2 Hx | l r x Hlr Hr Hx Hx2 Hs1 IH1 Hs2 IH2];
    intros pos t bs b ffuel Hpos Hfuel Hlen Hbs;
    (destruct ffuel as [|ffuel]; [lia|]); simpl.
  - rewrite Z.eqb_refl. exists x, 0%nat, (<[Z.to_nat x := b]> t).
    inversion Hbs as [l' x' b0 Hb0 | ]; subst; [|lia].
    replace (pos - l) with 0 by lia. simpl.
    repeat split; try lia; try assumption.
    + apply length_insert.
    + apply same_outside_insert. lia.
    + apply leaves_leaf. apply list_lookup_insert_eq. lia.
    + intros _. apply inv_leaf.
  - pose proof (mid_bounds l r ltac:(lia)) as Hm.
    pose proof (seg_slot _ _ _ _ Hs1) as Hx1.
    pose proof (seg_slot _ _ _ _ Hs2) as Hx3.
    rewrite (proj2 (Z.eqb_neq l r)) by lia.
    rewrite mid_small, incr_small, ls_small, rs_small by lia.
    inversion Hbs as [ | l' r' x' bl br _ Hbl Hbr]; [lia|]. subst l' r' x' bs.
    pose proof (leaves_length _ _ _ _ _ Hbl) as [_ Hll].
    destruct (Z.leb_spec pos ((l + r) / 2)) as [Hle|Hgt].
    + destruct (IH1 pos t bl b ffuel ltac:(lia) ltac:(lia) Hlen Hbl)
        as (y & k & t1 & E & By & Hy & Hk & Hp & S1 & L1 & I1).
      pose proof (outside_l_under_r x t t1 ltac:(lia) S1) as U.
      assert (length t1 = length t) as Hlen1 by (destruct S1; assumption).
      destruct (get_in_range t1 (2 * x) ltac:(lia)) as [a Ha].
      destruct (get_in_range t1 (2 * x + 1) ltac:(lia)) as [c Hc].
      exists y, (S k), (<[Z.to_nat x := a || c]> t1).
      split; [exact E|]. split; [exact By|].
      split; [rewrite Hy; symmetry; apply lookup_app_l; lia|].
      split; [lia|].
      split; [|split; [|split]].
      * intros fuel. replace (S k + fuel)%nat with (k + S fuel)%nat by lia.
        rewrite Hp, parent_ls. apply pushup_to_root_step; (lia || assumption).
      * eapply same_outside_trans; [apply same_outside_l, S1|].
        apply same_outside_insert. lia.
      * rewrite insert_app_l by lia.
        apply node_close_leaves; try assumption; try lia.
        eapply leaves_same; [lia | exact U | exact Hbr].
      * intros Hi.
        inversion Hi as [ | l' r' x' a0 b0 _ Hil Hir _ _ _]; [lia|]. subst l' r' x'.
        apply node_close_inv; try assumption; try lia; [exact (I1 Hil)|].
        eapply inv_same; [lia | exact U | exact Hir].
    + destruct (IH2 pos t br b ffuel ltac:(lia) ltac:(lia) Hlen Hbr)
        as (y & k & t1 & E & By & Hy & Hk & Hp & S1 & L1 & I1).
      pose proof (outside_r_under_l x t t1 ltac:(lia) S1) as U.
      assert (length t1 = length t) as Hlen1 by (destruct S1; assumption).
      destruct (get_in_range t1 (2 * x) ltac:(lia)) as [a Ha].
      destruct (get_in_range t1 (2 * x + 1) ltac:(lia)) as [c Hc].
      exists y, (S k), (<[Z.to_nat x := a || c]> t1).
      split; [exact E|]. split; [exact By|].
      split; [rewrite Hy, lookup_app_r by lia; f_equal; lia|].
      split; [lia|].
      split; [|split; [|split]].
      * intros fuel. replace (S k + fuel)%nat with (k + S fuel)%nat by lia.
        rewrite Hp, parent_rs. apply pushup_to_root_step; (lia || assumption).
      * eapply same_outside_trans; [apply same_outside_r, S1|].
        apply same_outside_insert. lia.
      * replace (Z.to_nat (pos - l)) with (length bl + Z.to_nat (pos - ((l + r) / 2 + 1)))%nat by lia.
        rewrite insert_app_r.
        apply node_close_leaves; try assumption; try lia.
        eapply leaves_same; [lia | exact U | exact Hbl].
      * intros Hi.
        inversion Hi as [ | l' r' x' a0 b0 _ Hil Hir _ _ _]; [lia|]. subst l' r' x'.
        apply node_close_inv; try assumption; try lia; [|exact (I1 Hir)].
        eapply inv_same; [lia | exact U | exact Hil].
Qed.

(** At the root: the point mutators and the handle's assignments. *)
Lemma point_update_bits N (t : bitset) bs pos b :
  sized N t -> bits N t bs -> 0 <= pos < N ->
  exists y t',
    __find (depth_fuel N) (incr pos) 1 N 1 = Ret y /\
    1 <= y < Z.of_nat (length t) /\
    t !! Z.to_nat y = bs !! Z.to_nat pos /\
    __pushup_to_root (S (Z.to_nat (capacity N))) (parent y) (<[Z.to_nat y := b]> t)
      = (Ret tt, t') /\
    sized N t' /\ bits N t' (<[Z.to_nat pos := b]> bs) /\
    t' !! Z.to_nat y = Some b /\
    (summary_inv N t -> summary_inv N t').
Proof.
  intros Hs Hb Hpos. pose proof Hs as (H1 & H2 & H3).
  pose proof (bits_length _ _ _ H1 Hb) as Hlen.
  rewrite incr_small by lia.
  destruct (leaf_update_ok _ _ _ _ (sized_seg _ _ Hs) (pos + 1) t bs b (depth_fuel N)
              ltac:(lia) (depth_fuel_enough N H1) eq_refl Hb)
    as (y & k & t' & E & By & Hy & Hk & Hp & [L1 _] & L & I).
  destruct (find_ok _ _ _ _ (sized_seg _ _ Hs) (pos + 1) (depth_fuel N)
              ltac:(lia) (depth_fuel_enough N H1)) as (y' & E' & _ & _ & Hleaf).
  assert (y' = y) as -> by congruence.
  exists y, t'. split; [exact E|]. split; [exact By|].
  replace (pos + 1 - 1) with pos in * by lia.
  split; [exact Hy|]. split.
  - rewrite capacity_small by lia.
    replace (S (Z.to_nat (4 * N + 1))) with (k + S (Z.to_nat (4 * N + 1) - k))%nat by lia.
    rewrite Hp. reflexivity.
  - split; [repeat split; try assumption; lia|].
    split; [exact L|]. split; [|exact I].
    rewrite (Hleaf t' _ L). apply list_lookup_insert_eq. lia.
Qed.

Lemma point_update_ok N (t : bitset) bs pos b :
  sized N t -> bits N t bs -> summary_inv N t -> 0 <= pos < N ->
  exists y t',
    __find (depth_fuel N) (incr pos) 1 N 1 = Ret y /\
    1 <= y < Z.of_nat (length t) /\
    t !! Z.to_nat y = bs !! Z.to_nat pos /\
    __pushup_to_root (S (Z.to_nat (capacity N))) (parent y) (<[Z.to_nat y := b]> t)
      = (Ret tt, t') /\
    sized N t' /\ bits N t' (<[Z.to_nat pos := b]> bs) /\ summary_inv N t'.
Proof.
  intros Hs Hb Hi Hpos.
  destruct (point_update_bits N t bs pos b Hs Hb Hpos)
    as (y & t' & E & By & Hy & Hp & Hs' & Hb' & _ & Hi').
  exists y, t'. repeat (split; [assumption|]). exact (Hi' Hi).
Qed.

(** ** Enumeration *)

Lemma true_from_app p bs cs :
  true_from p (bs ++ cs) = true_from p bs ++ true_from (p + Z.of_nat (length bs)) cs.
Proof.
  revert p. induction bs as [|b bs IH]; intros p; simpl.
  - f_equal. lia.
  - rewrite IH. replace (p + 1 + Z.of_nat (length bs)) with (p + Z.pos (Pos.of_succ_nat (length bs))) by lia.
    destruct b; reflexivity.
Qed.

Lemma true_from_none p bs : any_of bs = false -> true_from p bs = [].
Proof.
  revert p. induction bs as [|b bs IH]; intros p H; [reflexivity|].
  unfold any_of in H. simpl in H. apply orb_false_iff in H as [-> H].
  simpl. apply IH. exact H.
Qed.

Lemma true_from_spec p bs i :
  i ∈ true_from p bs <-> p <= i /\ bs !! Z.to_nat (i - p) = Some true.
Proof.
  revert p. induction bs as [|b bs IH]; intros p; simpl.
  - split; [intros H; inversion H | intros [_ H]; discriminate].
  - assert (i ∈ true_from (p + 1) bs <-> p < i /\ bs !! Z.to_nat (i - p - 1) = Some true) as IH'.
    { rewrite IH. replace (i - (p + 1)) with (i - p - 1) by lia. intuition lia. }
    destruct (Z.eq_dec i p) as [->|Hne].
    + replace (Z.to_nat (p - p)) with 0%nat by lia. simpl.
      destruct b.
      * split; [intros _; split; [lia|reflexivity] | intros _; apply list_elem_of_here].
      * rewrite IH'. split; [lia | intros [_ H]; discriminate].
    + assert (forall A (c : A) (cs : list A), p < i -> (c :: cs) !! Z.to_nat (i - p) = cs !! Z.to_nat (i - p - 1)) as Hcons.
      { intros A c cs Hlt. replace (Z.to_nat (i - p)) with (S (Z.to_nat (i - p - 1))) by lia. reflexivity. }
      destruct b.
      * rewrite elem_of_cons, IH'. split.
        -- intros [?|[? ?]]; [lia|]. split; [lia|]. rewrite Hcons by lia. assumption.
        -- intros [? H]. right. split; [lia|]. rewrite Hcons in H by lia. assumption.
      * rewrite IH'. split.
        -- intros [? ?]. split; [lia|]. rewrite Hcons by lia. assumption.
        -- intros [? H]. split; [lia|]. rewrite Hcons in H by lia. assumption.
Qed.

Lemma true_from_sorted p bs : StronglySorted Z.lt (true_from p bs).
Proof.
  revert p. induction bs as [|b bs IH]; intros p; simpl; [constructor|].
  destruct b; [|apply IH].
  constructor; [apply IH|].
  apply Forall_forall. intros i Hi. apply true_from_spec in Hi. lia.
Qed.

(** [true_indices v] lists exactly the indices of the true bits of [v]. *)
Lemma true_indices_spec (v : list bool) i :
  i ∈ true_indices v <-> 0 <= i /\ v !! Z.to_nat i = Some true.
Proof. unfold true_indices. rewrite true_from_spec, Z.sub_0_r. reflexivity. Qed.

Lemma first_from_app pos q bs cs :
  1 <= q ->
  first_from pos q (bs ++ cs) =
  if first_from pos q bs =? 0 then first_from pos (q + Z.of_nat (length bs)) cs
  else first_from pos q bs.
Proof.
  revert q. induction bs as [|b bs IH]; intros q Hq; simpl.
  - f_equal. lia.
  - destruct (b && (pos <=? q)).
    + rewrite (proj2 (Z.eqb_neq q 0)) by lia. reflexivity.
    + rewrite IH by lia.
      replace (q + 1 + Z.of_nat (length bs)) with (q + Z.of_nat (S (length bs))) by lia.
      reflexivity.
Qed.

Lemma first_from_none pos q bs : any_of bs = false -> first_from pos q bs = 0.
Proof.
  revert q. induction bs as [|b bs IH]; intros q H; [reflexivity|].
  unfold any_of in H. simpl in H. apply orb_false_iff in H as [-> H].
  simpl. apply IH. exact H.
Qed.

Lemma first_from_before pos q bs :
  q + Z.of_nat (length bs) <= pos -> first_from pos q bs = 0.
Proof.
  revert q. induction bs as [|b bs IH]; intros q H; [reflexivity|]. simpl in *.
  rewrite (proj2 (Z.leb_gt pos q)) by lia. rewrite andb_false_r. apply IH. lia.
Qed.

Lemma foreach1_ok cap l r x :
  seg cap l r x ->
  forall fuel (t : bitset) bs cb, (Z.to_nat (r - l) < fuel)%nat ->
  leaves t l r x bs -> inv t l r x ->
  __foreach1 fuel l r x t cb = Ret (cb ++ true_from (l - 1) bs).
Proof.
  induction 1 as [l x Hl Hl2 Hx | l r x Hlr Hr Hx Hx2 Hs1 IH1 Hs2 IH2];
    intros fuel t bs cb Hfuel Hbs Hi; (destruct fuel as [|fuel]; [lia|]); simpl;
    rewrite (get_some _ _ _ (inv_summary _ _ _ _ _ Hi Hbs)); simpl;
    (destruct (any_of bs) eqn:Hany; simpl;
     [| rewrite true_from_none, app_nil_r by assumption; reflexivity]).
  - rewrite Z.eqb_refl, decr_small by lia.
    inversion Hbs as [l' x' b Hb | ]; [|lia]. subst l' x' bs.
    unfold any_of in Hany. simpl in Hany. rewrite orb_false_r in Hany. subst b.
    reflexivity.
  - pose proof (mid_bounds l r ltac:(lia)) as Hm.
    rewrite (proj2 (Z.eqb_neq l r)) by lia.
    rewrite mid_small, incr_small, ls_small, rs_small by lia.
    inversion Hbs as [ | l' r' x' bl br _ Hbl Hbr]; [lia|]. subst l' r' x' bs.
    inversion Hi as [ | l' r' x' a0 b0 _ Hil Hir _ _ _]; [lia|]. subst l' r' x'.
    pose proof (leaves_length _ _ _ _ _ Hbl) as [_ Hll].
    rewrite (get_some _ _ _ (inv_summary _ _ _ _ _ Hil Hbl)). simpl.
    assert ((if any_of bl then __foreach1 fuel l ((l + r) / 2) (2 * x) t cb else Ret cb)
            = Ret (cb ++ true_from (l - 1) bl)) as ->.
    { destruct (any_of bl) eqn:Hl'; [apply IH1; (lia || assumption)|].
      rewrite true_from_none, app_nil_r by assumption. reflexivity. }
    simpl. rewrite (get_some _ _ _ (inv_summary _ _ _ _ _ Hir Hbr)). simpl.
    rewrite true_from_app, app_assoc.
    replace (l - 1 + Z.of_nat (length bl)) with ((l + r) / 2 + 1 - 1) by lia.
    destruct (any_of br) eqn:Hr'; [apply IH2; (lia || assumption)|].
    rewrite (true_from_none _ br), app_nil_r by assumption. reflexivity.
Qed.

Lemma next_ok cap l r x :
  seg cap l r x ->
  forall pos fuel (t : bitset) bs, (Z.to_nat (r - l) < fuel)%nat ->
  leaves t l r x bs -> inv t l r x ->
  __next fuel pos l r x t 0 = Ret (first_from pos l bs).
Proof.
  induction 1 as [l x Hl Hl2 Hx | l r x Hlr Hr Hx Hx2 Hs1 IH1 Hs2 IH2];
    intros pos fuel t bs Hfuel Hbs Hi; (destruct fuel as [|fuel]; [lia|]); simpl;
    rewrite (get_some _ _ _ (inv_summary _ _ _ _ _ Hi Hbs)); simpl;
    (destruct (any_of bs) eqn:Hany; simpl;
     [| rewrite first_from_none by assumption; reflexivity]);
    pose proof (leaves_length _ _ _ _ _ Hbs) as [_ Hlen].
  - destruct (Z.ltb_spec l pos) as [Hlt|Hge];
      [rewrite first_from_before by lia; reflexivity|].
    rewrite Z.eqb_refl.
    inversion Hbs as [l' x' b Hb | ]; [|lia]. subst l' x' bs.
    unfold any_of in Hany. simpl in Hany. rewrite orb_false_r in Hany. subst b.
    simpl. rewrite (proj2 (Z.leb_le pos l)) by lia. reflexivity.
  - destruct (Z.ltb_spec r pos) as [Hlt|Hge];
      [rewrite first_from_before by lia; reflexivity|].
    pose proof (mid_bounds l r ltac:(lia)) as Hm.
    rewrite (proj2 (Z.eqb_neq l r)) by lia.
    rewrite mid_small, incr_small, ls_small, rs_small by lia.
    inversion Hbs as [ | l' r' x' bl br _ Hbl Hbr]; [lia|]. subst l' r' x' bs.
    inversion Hi as [ | l' r' x' a0 b0 _ Hil Hir _ _ _]; [lia|]. subst l' r' x'.
    pose proof (leaves_length _ _ _ _ _ Hbl) as [_ Hll].
    rewrite (get_some _ _ _ (inv_summary _ _ _ _ _ Hil Hbl)). simpl.
    assert ((if any_of bl then __next fuel pos l ((l + r) / 2) (2 * x) t 0 else Ret 0)
            = Ret (first_from pos l bl)) as ->.
    { destruct (any_of bl) eqn:Hl'; [apply IH1; (lia || assumption)|].
      rewrite first_from_none by assumption. reflexivity. }
    simpl. rewrite first_from_app by lia.
    replace (l + Z.of_nat (length bl)) with ((l + r) / 2 + 1) by lia.
    destruct (first_from pos l bl =? 0) eqn:E0; [|reflexivity].
    apply Z.eqb_eq in E0. rewrite E0.
    rewrite (get_some _ _ _ (inv_summary _ _ _ _ _ Hir Hbr)). simpl.
    destruct (any_of br) eqn:Hr'; [apply IH2; (lia || assumption)|].
    rewrite first_from_none by assumption. reflexivity.
Qed.

(** ** The public mutators keep the structure in order *)

Lemma post_valid N t bs res :
  sized N t -> post 1 N 1 t bs res ->
  exists t', res = (Ret tt, t') /\ valid N t' bs.
Proof.
  intros (H1 & H2 & H3) (t' & E & [L _] & Hl & Hi).
  exists t'. split; [exact E|]. repeat split; try assumption. lia.
Qed.

Lemma lift_find_eq {B} N pos (k : Z -> M B) (t : bitset) y :
  __find (depth_fuel N) (incr pos) 1 N 1 = Ret y ->
  bind (lift (fun _ => __find (depth_fuel N) (incr pos) 1 N 1)) k t = k y t.
Proof. intros E. apply bind_eq. unfold lift. rewrite E. reflexivity. Qed.

Lemma set_ok N t bs pos value :
  valid N t bs -> 0 <= pos < N ->
  exists t', set N pos value t = (Ret tt, t') /\
             valid N t' (<[Z.to_nat pos := true]> bs).
Proof.
  intros (Hs & Hb & Hi) Hpos.
  destruct (point_update_ok N t bs pos true Hs Hb Hi Hpos)
    as (y & t' & E & By & Hy & Hp & Hs' & Hb' & Hi').
  exists t'. split; [|split; [|split]; assumption].
  unfold set. rewrite (proj2 (Z.leb_gt N pos)) by lia.
  rewrite (lift_find_eq _ _ _ _ _ E), bind_write by lia. exact Hp.
Qed.

Lemma reset_pos_ok N t bs pos :
  valid N t bs -> 0 <= pos < N ->
  exists t', reset N pos t = (Ret tt, t') /\
             valid N t' (<[Z.to_nat pos := false]> bs).
Proof.
  intros (Hs & Hb & Hi) Hpos.
  destruct (point_update_ok N t bs pos false Hs Hb Hi Hpos)
    as (y & t' & E & By & Hy & Hp & Hs' & Hb' & Hi').
  exists t'. split; [|split; [|split]; assumption].
  unfold reset. rewrite (proj2 (Z.leb_gt N pos)) by lia.
  rewrite (lift_find_eq _ _ _ _ _ E), bind_write by lia. exact Hp.
Qed.

Lemma bits_lookup N (t : bitset) bs pos :
  1 <= N -> bits N t bs -> 0 <= pos < N -> exists b, bs !! Z.to_nat pos = Some b.
Proof.
  intros HN Hb Hpos. apply lookup_lt_is_Some_2.
  pose proof (bits_length _ _ _ HN Hb). lia.
Qed.

Lemma flip_pos_ok N t bs pos b :
  valid N t bs -> 0 <= pos < N -> bs !! Z.to_nat pos = Some b ->
  exists t', flip N pos t = (Ret tt, t') /\
             valid N t' (<[Z.to_nat pos := negb b]> bs).
Proof.
  intros (Hs & Hb & Hi) Hpos Hbit.
  destruct (point_update_ok N t bs pos (negb b) Hs Hb Hi Hpos)
    as (y & t' & E & By & Hy & Hp & Hs' & Hb' & Hi').
  exists t'. split; [|split; [|split]; assumption].
  unfold flip. rewrite (proj2 (Z.leb_gt N pos)) by lia.
  rewrite Hbit in Hy.
  rewrite (lift_find_eq _ _ _ _ _ E), (bind_read _ _ _ _ Hy), bind_write by lia.
  exact Hp.
Qed.

(** The handle returned by [operator[]] caches the leaf slot of [pos]. *)
Lemma index_ok N t bs pos :
  valid N t bs -> 0 <= pos < N ->
  exists x, index N pos t = (Ret x, t) /\
            __find (depth_fuel N) (incr pos) 1 N 1 = Ret x.
Proof.
  intros (Hs & Hb & Hi) Hpos.
  destruct (point_update_ok N t bs pos true Hs Hb Hi Hpos) as (y & _ & E & _).
  exists y. split; [|exact E].
  unfold index. rewrite (proj2 (Z.leb_gt N pos)) by lia.
  unfold lift. rewrite E. reflexivity.
Qed.

Lemma ref_assign_ok N t bs pos x value :
  valid N t bs -> 0 <= pos < N -> index N pos t = (Ret x, t) ->
  exists t', ref_assign N x value t = (Ret tt, t') /\
             valid N t' (<[Z.to_nat pos := value]> bs).
Proof.
  intros (Hs & Hb & Hi) Hpos Hx.
  destruct (point_update_ok N t bs pos value Hs Hb Hi Hpos)
    as (y & t' & E & By & Hy & Hp & Hs' & Hb' & Hi').
  assert (x = y) as ->.
  { unfold index in Hx. rewrite (proj2 (Z.leb_gt N pos)) in Hx by lia.
    unfold lift in Hx. rewrite E in Hx. congruence. }
  exists t'. split; [|split; [|split]; assumption].
  unfold ref_assign. rewrite bind_write by lia. exact Hp.
Qed.

Lemma ref_not_ok N t bs pos x b :
  valid N t bs -> 0 <= pos < N -> index N pos t = (Ret x, t) ->
  bs !! Z.to_nat pos = Some b ->
  exists t', ref_not N x t = (Ret (negb b), t') /\
             valid N t' (<[Z.to_nat pos := negb b]> bs).
Proof.
  intros (Hs & Hb & Hi) Hpos Hx Hbit.
  destruct (point_update_bits N t bs pos (negb b) Hs Hb Hpos)
    as (y & t' & E & By & Hy & Hp & Hs' & Hb' & Hy' & Hi').
  assert (x = y) as ->.
  { unfold index in Hx. rewrite (proj2 (Z.leb_gt N pos)) in Hx by lia.
    unfold lift in Hx. rewrite E in Hx. congruence. }
  exists t'. split; [|split; [|split]; auto].
  unfold ref_not. rewrite Hbit in Hy.
  rewrite (bind_read _ _ _ _ Hy), bind_write by lia.
  rewrite (bind_eq _ _ _ _ _ Hp). unfold read.
  rewrite (get_some _ _ _ Hy'). reflexivity.
Qed.

(** [b[i] = b[j]] reads slot [x] of the right handle's structure, so within
    one structure it stores the bit back unchanged. *)
Lemma ref_assign_ref_ok N t bs pos x :
  valid N t bs -> 0 <= pos < N -> index N pos t = (Ret x, t) ->
  exists t', ref_assign_ref N x This t = (Ret tt, t') /\ valid N t' bs.
Proof.
  intros (Hs & Hb & Hi) Hpos Hx.
  destruct (bits_lookup N t bs pos ltac:(destruct Hs; lia) Hb Hpos) as [b Hbit].
  destruct (point_update_ok N t bs pos b Hs Hb Hi Hpos)
    as (y & t' & E & By & Hy & Hp & Hs' & Hb' & Hi').
  assert (x = y) as ->.
  { unfold index in Hx. rewrite (proj2 (Z.leb_gt N pos)) in Hx by lia.
    unfold lift in Hx. rewrite E in Hx. congruence. }
  rewrite list_insert_id in Hb' by exact Hbit.
  exists t'. split; [|split; [|split]; assumption].
  unfold ref_assign_ref, read_other. rewrite Hbit in Hy.
  rewrite (bind_read _ _ _ _ Hy), bind_write by lia. exact Hp.
Qed.

Lemma const_tree_ok cap l r x b :
  seg cap l r x ->
  leaves (replicate (Z.to_nat cap) b) l r x (replicate (Z.to_nat (r - l + 1)) b) /\
  inv (replicate (Z.to_nat cap) b) l r x.
Proof.
  induction 1 as [l x Hl Hl2 Hx | l r x Hlr Hr Hx Hx2 Hs1 [L1 I1] Hs2 [L2 I2]].
  - split; [|apply inv_leaf]. replace (l - l + 1) with 1 by lia.
    apply leaves_leaf. apply lookup_replicate_2. lia.
  - pose proof (mid_bounds l r ltac:(lia)) as Hm.
    pose proof (seg_slot _ _ _ _ Hs2) as Hx3.
    split.
    + replace (Z.to_nat (r - l + 1))
        with (Z.to_nat ((l + r) / 2 - l + 1) + Z.to_nat (r - ((l + r) / 2 + 1) + 1))%nat by lia.
      rewrite replicate_add. apply leaves_node; [lia | exact L1 | exact L2].
    + apply (inv_node _ _ _ _ b b); try assumption; try lia;
        [| | rewrite orb_diag]; apply lookup_replicate_2; lia.
Qed.

Lemma const_tree_valid N t b :
  sized N t -> valid N (replicate (length t) b) (replicate (Z.to_nat N) b).
Proof.
  intros Hs. pose proof Hs as (H1 & H2 & H3).
  destruct (const_tree_ok _ _ _ _ b (sized_seg _ _ Hs)) as [L I].
  rewrite Nat2Z.id in L, I. replace (N - 1 + 1) with N in L by lia.
  split; [|split; assumption].
  repeat split; try assumption. rewrite length_replicate. exact H3.
Qed.

Lemma set_all_ok N t :
  sized N t ->
  exists t', set_all t = (Ret tt, t') /\ valid N t' (replicate (Z.to_nat N) true).
Proof.
  intros Hs. exists (replicate (length t) true). split; [reflexivity|].
  apply const_tree_valid. exact Hs.
Qed.

Lemma reset_all_ok N t bs :
  valid N t bs ->
  exists t', reset_all N t = (Ret tt, t') /\ valid N t' (replicate (length bs) false).
Proof.
  intros (Hs & Hb & Hi). apply (post_valid _ _ _ _ Hs).
  apply (reset_ok _ _ _ _ (sized_seg _ _ Hs)); try assumption; try reflexivity.
  apply depth_fuel_enough. destruct Hs; lia.
Qed.

Lemma flip_all_ok N t bs :
  sized N t -> bits N t bs ->
  exists t', flip_all N t = (Ret tt, t') /\ valid N t' (map negb bs).
Proof.
  intros Hs Hb. apply (post_valid _ _ _ _ Hs).
  apply (flip_ok _ _ _ _ (sized_seg _ _ Hs)); try assumption; try reflexivity.
  apply depth_fuel_enough. destruct Hs; lia.
Qed.

Lemma operand_valid_view N other t bs cs :
  valid N t bs -> operand_valid N other bs cs ->
  operand_view (Z.of_nat (length t)) other t 1 N 1 cs.
Proof.
  intros (Hs & Hb & Hi). destruct other as [|o]; simpl.
  - intros ->. exact Hb.
  - intros ((_ & _ & Ho) & Hbo & Hio). destruct Hs as (_ & _ & Ht).
    split; [lia|]. split; assumption.
Qed.

Lemma and_assign_valid N other t bs cs :
  valid N t bs -> operand_valid N other bs cs ->
  exists t', and_assign N other t = (Ret tt, t') /\ valid N t' (zip_with andb bs cs).
Proof.
  intros Hv Ho. pose proof (operand_valid_view _ _ _ _ _ Hv Ho) as Hview.
  destruct Hv as (Hs & Hb & Hi). apply (post_valid _ _ _ _ Hs).
  apply (and_assign_ok _ _ _ _ (sized_seg _ _ Hs)); try assumption; try reflexivity.
  apply depth_fuel_enough. destruct Hs; lia.
Qed.

Lemma or_assign_valid N other t bs cs :
  valid N t bs -> operand_valid N other bs cs ->
  exists t', or_assign N other t = (Ret tt, t') /\ valid N t' (zip_with orb bs cs).
Proof.
  intros Hv Ho. pose proof (operand_valid_view _ _ _ _ _ Hv Ho) as Hview.
  destruct Hv as (Hs & Hb & Hi). apply (post_valid _ _ _ _ Hs).
  apply (or_assign_ok _ _ _ _ (sized_seg _ _ Hs)); try assumption; try reflexivity.
  apply depth_fuel_enough. destruct Hs; lia.
Qed.

Lemma xor_assign_valid N other t bs cs :
  valid N t bs -> operand_valid N other bs cs ->
  exists t', xor_assign N other t = (Ret tt, t') /\ valid N t' (zip_with xorb bs cs).
Proof.
  intros Hv Ho. pose proof (operand_valid_view _ _ _ _ _ Hv Ho) as Hview.
  destruct Hv as (Hs & Hb & Hi). apply (post_valid _ _ _ _ Hs).
  apply (xor_assign_ok _ _ _ _ (sized_seg _ _ Hs)); try assumption; try reflexivity.
  apply depth_fuel_enough. destruct Hs; lia.
Qed.

Lemma of_bitset_valid N (a : bitset) :
  1 <= N -> 4 * N + 1 < size_mod -> Z.of_nat (length a) = N ->
  exists t, of_bitset N a = (Ret tt, t) /\ valid N t a.
Proof. intros H1 H2 H3. apply of_bitset_ok; assumption. Qed.

Lemma empty_valid N :
  1 <= N -> 4 * N + 1 < size_mod -> valid N (empty N) (replicate (Z.to_nat N) false).
Proof.
  intros H1 H2. pose proof (sized_empty N H1 H2) as Hs.
  pose proof (const_tree_valid N (empty N) false Hs) as Hv.
  unfold empty in Hv at 1. rewrite length_replicate in Hv. exact Hv.
Qed.

(** Starting from a structure in order, every public mutator other than
    the handle's [flip()] returns normally and leaves the summary property
    in place (construction from a vector: [of_bitset_valid]). *)
Lemma other_mutators_keep_summary N t bs pos x b other cs value :
  valid N t bs -> 0 <= pos < N -> index N pos t = (Ret x, t) ->
  bs !! Z.to_nat pos = Some b -> operand_valid N other bs cs ->
  (exists t', set N pos value t = (Ret tt, t') /\ summary_inv N t') /\
  (exists t', reset N pos t = (Ret tt, t') /\ summary_inv N t') /\
  (exists t', flip N pos t = (Ret tt, t') /\ summary_inv N t') /\
  (exists t', set_all t = (Ret tt, t') /\ summary_inv N t') /\
  (exists t', reset_all N t = (Ret tt, t') /\ summary_inv N t') /\
  (exists t', flip_all N t = (Ret tt, t') /\ summary_inv N t') /\
  (exists t', and_assign N other t = (Ret tt, t') /\ summary_inv N t') /\
  (exists t', or_assign N other t = (Ret tt, t') /\ summary_inv N t') /\
  (exists t', xor_assign N other t = (Ret tt, t') /\ summary_inv N t') /\
  (exists t', ref_assign N x value t = (Ret tt, t') /\ summary_inv N t') /\
  (exists t', ref_assign_ref N x This t = (Ret tt, t') /\ summary_inv N t') /\
  (exists t', ref_not N x t = (Ret (negb b), t') /\ summary_inv N t').
Proof.
  intros Hv Hpos Hx Hbit Ho. pose proof Hv as (Hs & Hb & Hi).
  repeat split.
  - destruct (set_ok N t bs pos value Hv Hpos) as (t' & E & _ & _ & I); eauto.
  - destruct (reset_pos_ok N t bs pos Hv Hpos) as (t' & E & _ & _ & I); eauto.
  - destruct (flip_pos_ok N t bs pos b Hv Hpos Hbit) as (t' & E & _ & _ & I); eauto.
  - destruct (set_all_ok N t Hs) as (t' & E & _ & _ & I); eauto.
  - destruct (reset_all_ok N t bs Hv) as (t' & E & _ & _ & I); eauto.
  - destruct (flip_all_ok N t bs Hs Hb) as (t' & E & _ & _ & I); eauto.
  - destruct (and_assign_valid N other t bs cs Hv Ho) as (t' & E & _ & _ & I); eauto.
  - destruct (or_assign_valid N other t bs cs Hv Ho) as (t' & E & _ & _ & I); eauto.
  - destruct (xor_assign_valid N other t bs cs Hv Ho) as (t' & E & _ & _ & I); eauto.
  - destruct (ref_assign_ok N t bs pos x value Hv Hpos Hx) as (t' & E & _ & _ & I); eauto.
  - destruct (ref_assign_ref_ok N t bs pos x Hv Hpos Hx) as (t' & E & _ & _ & I); eauto.
  - destruct (ref_not_ok N t bs pos x b Hv Hpos Hx Hbit) as (t' & E & _ & _ & I); eauto.
Qed.

(** ** Enumeration of the whole structure *)

Lemma first_from_bound pos q bs :
  first_from pos q bs = 0 \/
  (pos <= first_from pos q bs /\ q <= first_from pos q bs < q + Z.of_nat (length bs)).
Proof.
  revert q. induction bs as [|b bs IH]; intros q; simpl; [left; reflexivity|].
  destruct b; simpl.
  - destruct (Z.leb_spec pos q); [right; lia|].
    destruct (IH (q + 1)); [left; assumption | right; lia].
  - destruct (IH (q + 1)); [left; assumption | right; lia].
Qed.

Lemma first_from_skip pos q pre cs :
  1 <= q -> q + Z.of_nat (length pre) <= pos ->
  first_from pos q (pre ++ cs) = first_from pos (q + Z.of_nat (length pre)) cs.
Proof.
  intros Hq Hpos. rewrite first_from_app by exact Hq.
  rewrite first_from_before by exact Hpos. reflexivity.
Qed.

Lemma first_from_irrel pos pos' q cs :
  pos <= q -> pos' <= q -> first_from pos q cs = first_from pos' q cs.
Proof.
  revert q. induction cs as [|c cs IH]; intros q H1 H2; [reflexivity|]. simpl.
  rewrite (proj2 (Z.leb_le pos q)), (proj2 (Z.leb_le pos' q)) by lia.
  destruct c; simpl; [reflexivity|]. apply IH; lia.
Qed.

Lemma run_next N t bs pos :
  valid N t bs ->
  __next (depth_fuel N) pos 1 N 1 t 0 = Ret (first_from pos 1 bs).
Proof.
  intros (Hs & Hb & Hi).
  apply (next_ok _ _ _ _ (sized_seg _ _ Hs)); try assumption.
  apply depth_fuel_enough. destruct Hs; lia.
Qed.

Lemma found_decr N ans bs pos :
  4 * N + 1 < size_mod -> Z.of_nat (length bs) = N -> ans = first_from pos 1 bs ->
  (if ans =? 0 then N else decr ans) = found N ans.
Proof.
  intros H1 H2 ->. unfold found.
  destruct (first_from_bound pos 1 bs) as [->|H]; [reflexivity|].
  destruct (Z.eqb_spec (first_from pos 1 bs) 0); [reflexivity|].
  apply decr_small. lia.
Qed.

Lemma first_ok N t bs :
  valid N t bs -> first N t = Ret (found N (first_from 1 1 bs)).
Proof.
  intros Hv. unfold first. rewrite (run_next _ _ _ _ Hv). simpl.
  destruct Hv as ((H1 & H2 & H3) & Hb & _).
  rewrite (found_decr N _ bs 1); try reflexivity; try assumption.
  apply (bits_length N t); assumption.
Qed.

Lemma next_top_ok N t bs p :
  valid N t bs -> 0 <= p -> p + 2 < size_mod ->
  next N p t = Ret (found N (first_from (p + 2) 1 bs)).
Proof.
  intros Hv Hp Hp2. unfold next. rewrite !incr_small by (rewrite ?incr_small; lia).
  rewrite (run_next _ _ _ _ Hv). simpl.
  destruct Hv as ((H1 & H2 & H3) & Hb & _).
  replace (p + 1 + 1) with (p + 2) by lia.
  rewrite (found_decr N _ bs (p + 2)); try reflexivity; try assumption.
  apply (bits_length N t); assumption.
Qed.

Lemma next_loop_ok N t bs :
  valid N t bs ->
  forall cs pre p, bs = pre ++ cs -> p = Z.of_nat (length pre) ->
  forall fuel, (length cs < fuel)%nat ->
  next_loop fuel N t (found N (first_from (p + 1) (p + 1) cs)) = Ret (true_from p cs).
Proof.
  intros Hv. pose proof Hv as ((H1 & H2 & H3) & Hb & _).
  pose proof (bits_length _ _ _ H1 Hb) as Hlen.
  induction cs as [|c cs IH]; intros pre p Hbs Hp fuel Hfuel;
    (destruct fuel as [|fuel]; [simpl in Hfuel; lia|]).
  - simpl. unfold found. simpl. rewrite Z.eqb_refl. reflexivity.
  - assert (Z.of_nat (length pre) + 1 + Z.of_nat (length cs) = N) as HN.
    { rewrite <- Hlen, Hbs, length_app. simpl. lia. }
    assert (bs = (pre ++ [c]) ++ cs) as Hbs' by (rewrite <- app_assoc; exact Hbs).
    assert (p + 1 = Z.of_nat (length (pre ++ [c]))) as Hp'
      by (rewrite length_app; simpl; lia).
    destruct c.
    + change (first_from (p + 1) (p + 1) (true :: cs))
        with (if true && (p + 1 <=? p + 1) then p + 1
              else first_from (p + 1) (p + 1 + 1) cs).
      rewrite Z.leb_refl. simpl andb. cbv iota.
      unfold found at 1. rewrite (proj2 (Z.eqb_neq (p + 1) 0)) by lia.
      replace (p + 1 - 1) with p by lia.
      change (true_from p (true :: cs)) with (p :: true_from (p + 1) cs).
      cbn [next_loop]. rewrite (proj2 (Z.eqb_neq p N)) by lia.
      rewrite (next_top_ok N t bs p Hv) by lia. cbn [obind].
      rewrite Hbs' at 1. rewrite first_from_skip by (rewrite <- ?Hp'; lia).
      rewrite <- Hp'. replace (1 + (p + 1)) with (p + 1 + 1) by lia.
      replace (p + 2) with (p + 1 + 1) by lia.
      rewrite (IH (pre ++ [true]) (p + 1) Hbs' Hp' fuel) by (simpl in Hfuel; lia).
      reflexivity.
    + change (first_from (p + 1) (p + 1) (false :: cs))
        with (if false && (p + 1 <=? p + 1) then p + 1
              else first_from (p + 1) (p + 1 + 1) cs).
      simpl andb. cbv iota.
      change (true_from p (false :: cs)) with (true_from (p + 1) cs).
      rewrite (first_from_irrel (p + 1) (p + 1 + 1)) by lia.
      apply (IH (pre ++ [false]) (p + 1) Hbs' Hp'). simpl in Hfuel. lia.
Qed.

Lemma first_next_sequence_ok N t bs :
  valid N t bs -> first_next_sequence N t = Ret (true_indices bs).
Proof.
  intros Hv. unfold first_next_sequence. rewrite (first_ok _ _ _ Hv). cbn [obind].
  pose proof Hv as ((H1 & H2 & H3) & Hb & _).
  pose proof (bits_length _ _ _ H1 Hb) as Hlen.
  apply (next_loop_ok N t bs Hv bs [] 0); [reflexivity | reflexivity | lia].
Qed.

Lemma foreach1_top_ok N t bs :
  valid N t bs -> foreach1 N t = Ret (true_indices bs).
Proof.
  intros (Hs & Hb & Hi). unfold foreach1, true_indices.
  rewrite (foreach1_ok _ _ _ _ (sized_seg _ _ Hs) _ t bs []); try assumption.
  - reflexivity.
  - apply depth_fuel_enough. destruct Hs; lia.
Qed.

(** [next] increments its argument twice in [size_t].  For the two largest
    [size_t] values, which are positions of no instance (an instance has
    [4N + 1 < 2^64]), the increments wrap around and the search starts
    from the first position again. *)
Remark next_wraps_at_size_max :
  next 2 (size_mod - 1) sample2 = Ret 0 /\ next 2 (size_mod - 2) sample2 = Ret 0.
Proof. split; reflexivity. Qed.

Lemma first_from_absent pos q bs :
  (forall i : nat, pos <= q + Z.of_nat i -> bs !! i <> Some true) ->
  first_from pos q bs = 0.
Proof.
  revert q. induction bs as [|b bs IH]; intros q H; [reflexivity|]. simpl.
  destruct (Z.leb_spec pos q) as [Hle|Hgt].
  - destruct b; [exfalso; apply (H 0%nat); [lia | reflexivity]|].
    simpl. apply IH. intros i Hi. apply (H (S i)). lia.
  - rewrite andb_false_r. apply IH. intros i Hi. apply (H (S i)). lia.
Qed.

(** ** Self-combination and comparison *)

Lemma zip_and_self (bs : list bool) : zip_with andb bs bs = bs.
Proof. induction bs as [|b bs IH]; [reflexivity|]. simpl. rewrite andb_diag, IH. reflexivity. Qed.

Lemma zip_or_self (bs : list bool) : zip_with orb bs bs = bs.
Proof. induction bs as [|b bs IH]; [reflexivity|]. simpl. rewrite orb_diag, IH. reflexivity. Qed.

Lemma zip_xor_self (bs : list bool) : zip_with xorb bs bs = replicate (length bs) false.
Proof. induction bs as [|b bs IH]; [reflexivity|]. simpl. rewrite xorb_nilpotent, IH. reflexivity. Qed.

Lemma any_of_replicate_false n : any_of (replicate n false) = false.
Proof. induction n as [|n IH]; [reflexivity|]. exact IH. Qed.

Lemma map_negb_negb (bs : list bool) : map negb (map negb bs) = bs.
Proof. induction bs as [|b bs IH]; [reflexivity|]. simpl. rewrite negb_involutive, IH. reflexivity. Qed.

Lemma self_operand_valid N t bs other :
  valid N t bs -> other = This \/ other = Other t -> operand_valid N other bs bs.
Proof. intros Hv [-> | ->]; simpl; [reflexivity | exact Hv]. Qed.

Lemma self_operand_bits N t bs other :
  sized N t -> bits N t bs -> other = This \/ other = Other t ->
  operand_bits (Z.of_nat (length t)) other t 1 N 1 bs.
Proof. intros Hs Hb [-> | ->]; simpl; [exact Hb | split; [reflexivity | exact Hb]]. Qed.

Lemma post_bits_root N t bs res :
  post_bits 1 N 1 t bs res -> exists t', res = (Ret tt, t') /\ bits N t' bs.
Proof. intros (t' & E & _ & Hl). exists t'. split; assumption. Qed.

(** The summary property is needed for [A ^= A]: on the structure that
    [s[0].flip()] leaves behind (root summary off, leaf of position 0 on),
    the XOR is pruned at the root and the bit stays on. *)
Remark xor_self_needs_summary :
  let t := [false; false; true; false; false; false; false; false; false] in
  ref_flip 2 (empty 2) = (Ret tt, t) /\
  xor_assign 2 This t = (Ret tt, t) /\ test 2 0 t = Ret true.
Proof. repeat split; reflexivity. Qed.

(** [__equal] answers at once where both summaries are off, and where
    the summaries differ. *)
Lemma equal_both_off fuel rhs l r x (t : bitset) :
  get t x = Ret false -> get rhs x = Ret false ->
  __equal (S fuel) rhs l r x t = Ret true.
Proof. intros Ha Hb. simpl. rewrite Ha, Hb. reflexivity. Qed.

Lemma equal_mismatch fuel rhs l r x (t : bitset) a :
  get t x = Ret a -> get rhs x = Ret (negb a) ->
  __equal (S fuel) rhs l r x t = Ret false.
Proof. intros Ha Hb. simpl. rewrite Ha, Hb. destruct a; reflexivity. Qed.

(** The budget [equal] hands to [__equal] is never the limit: the slot
    index at least doubles at every level and must stay inside the array. *)
Lemma equal_fuel_enough fuel rhs (t : bitset) : forall l r x,
  1 <= x -> 2 * Z.of_nat (length t) <= size_mod ->
  (Z.to_nat (Z.of_nat (length t) - x) < fuel)%nat ->
  __equal fuel rhs l r x t <> OutOfFuel.
Proof.
  induction fuel as [|fuel IH]; intros l r x Hx Hlen Hfuel; [lia|]. simpl.
  unfold get at 1. destruct (t !! Z.to_nat x) as [a|] eqn:Ha; [|discriminate].
  apply lookup_lt_Some in Ha. simpl.
  unfold get at 1. destruct (rhs !! Z.to_nat x) as [b|]; [|discriminate]. simpl.
  destruct (negb (Bool.eqb a b)); [discriminate|].
  destruct (negb a && negb b); [discriminate|].
  destruct (l =? r); [discriminate|].
  rewrite ls_small, rs_small by lia.
  pose proof (IH l (mid l r) (2 * x) ltac:(lia) Hlen ltac:(lia)) as IHl.
  destruct (__equal fuel rhs l (mid l r) (2 * x) t) as [el| | |];
    try discriminate; [|congruence].
  simpl. destruct el; [|discriminate].
  apply IH; lia.
Qed.

(** On operands that were only ever built from vectors the same descent
    can leave the array: for two [segbitset<6>] built from [0,0,0,1,0,0]
    it reads slot 25 of the 25 slots. *)
Remark equal_reads_outside_array :
  let B := snd (of_bitset 6 [false; false; false; true; false; false]) in
  Z.of_nat (length B) = 25 /\ equal 6 B B = Undefined.
Proof. split; reflexivity. Qed.

(** * The specification's claims *)

Lemma sample2_built : of_bitset 2 [true; false] = (Ret tt, sample2).
Proof. reflexivity. Qed.

Lemma sample2_valid : valid 2 sample2 [true; false].
Proof.
  destruct (of_bitset_valid 2 [true; false]) as (t & E & Hv);
    [lia | reflexivity | reflexivity |].
  rewrite sample2_built in E. congruence.
Qed.

(** C1 (fails on the code).  The summary property is claimed to hold after
    every public mutating operation, the handle's [flip()] included.
    [reference::flip] writes the leaf and returns without walking up to the
    root: on an empty [segbitset<2>], [s[0].flip()] leaves the root summary
    false while its left child, the leaf of position 0, is true. *)
Theorem handle_flip_breaks_summary :
  valid 2 (empty 2) [false; false] /\
  index 2 0 (empty 2) = (Ret 2, empty 2) /\
  exists t', ref_flip 2 (empty 2) = (Ret tt, t') /\
    get t' 1 = Ret false /\ get t' (__ls 1) = Ret true /\
    get t' (__rs 1) = Ret false /\
    ~ summary_inv 2 t'.
Proof.
  split; [apply (empty_valid 2); [lia | reflexivity]|].
  split; [reflexivity|].
  exists [false; false; true; false; false; false; false; false; false].
  split; [reflexivity|].
  split; [reflexivity|]. split; [reflexivity|]. split; [reflexivity|].
  unfold summary_inv. intros H. inversion H as [ | l r x a b Hlr Hl Hr Ha Hb Hab].
  vm_compute in Ha, Hb. injection Ha as <-. injection Hb as <-.
  vm_compute in Hab. discriminate Hab.
Qed.

(** C2 (fails on the code).  [set(pos, value)] is claimed to store [value].
    The body assigns the constant 1 whatever [value] is: on a
    [segbitset<2>] built from the bits [1, 1], [set(0, false)] leaves
    position 0 true, whereas [reset(0)] clears it. *)
Theorem set_false_stores_true :
  let t := [false; true; true; true; false; false; false; false; false] in
  let t2 := [false; true; false; true; false; false; false; false; false] in
  of_bitset 2 [true; true] = (Ret tt, t) /\
  set 2 0 false t = (Ret tt, t) /\ test 2 0 t = Ret true /\
  reset 2 0 t = (Ret tt, t2) /\ test 2 0 t2 = Ret false.
Proof. repeat split; reflexivity. Qed.

(** C3.  Round trip: building a structure from a dense vector [v] of
    length [N] and exporting it yields [v] again. *)
Theorem build_export_roundtrip N (v : bitset) :
  1 <= N -> 4 * N + 1 < size_mod -> Z.of_nat (length v) = N ->
  exists t, of_bitset N v = (Ret tt, t) /\ to_bitset N t = Ret v.
Proof.
  intros H1 H2 H3.
  destruct (of_bitset_valid N v H1 H2 H3) as (t & E & Hs & Hb & _).
  exists t. split; [exact E|]. apply to_bitset_bits; assumption.
Qed.

Lemma build_export_roundtrip_witness :
  (1 <= 3 /\ 4 * 3 + 1 < size_mod /\ Z.of_nat (length [true; false; true]) = 3) /\
  exists t, of_bitset 3 [true; false; true] = (Ret tt, t) /\
            to_bitset 3 t = Ret [true; false; true].
Proof.
  split; [split; [lia | split; reflexivity]|].
  apply (build_export_roundtrip 3 [true; false; true]); [lia | reflexivity | reflexivity].
Defined.

(** C4.  For structures [A], [B] built from the vectors [a], [b] of length
    [N], the exports of [A & B], [A | B] and [A ^ B] hold at every index
    [i < N] the bits [a[i] && b[i]], [a[i] || b[i]] and [a[i] != b[i]]. *)
Theorem pairwise_pointwise N (a b : bitset) :
  1 <= N -> 4 * N + 1 < size_mod ->
  Z.of_nat (length a) = N -> Z.of_nat (length b) = N ->
  exists A B, of_bitset N a = (Ret tt, A) /\ of_bitset N b = (Ret tt, B) /\
  exists Rand Ror Rxor eand eor exor,
    op_and N A B = (Ret tt, Rand) /\ to_bitset N Rand = Ret eand /\
    op_or N A B = (Ret tt, Ror) /\ to_bitset N Ror = Ret eor /\
    op_xor N A B = (Ret tt, Rxor) /\ to_bitset N Rxor = Ret exor /\
    forall i, 0 <= i < N ->
      exists ai bi, get a i = Ret ai /\ get b i = Ret bi /\
        get eand i = Ret (ai && bi) /\
        get eor i = Ret (ai || bi) /\
        get exor i = Ret (negb (Bool.eqb ai bi)).
Proof.
  intros H1 H2 Ha Hb.
  destruct (of_bitset_valid N a H1 H2 Ha) as (A & EA & HA).
  destruct (of_bitset_valid N b H1 H2 Hb) as (B & EB & HB).
  exists A, B. split; [exact EA|]. split; [exact EB|].
  destruct (and_assign_valid N (Other B) A a b HA HB) as (Rand & E1 & V1 & B1 & _).
  destruct (or_assign_valid N (Other B) A a b HA HB) as (Ror & E2 & V2 & B2 & _).
  destruct (xor_assign_valid N (Other B) A a b HA HB) as (Rxor & E3 & V3 & B3 & _).
  exists Rand, Ror, Rxor, (zip_with andb a b), (zip_with orb a b), (zip_with xorb a b).
  split; [exact E1|]. split; [apply to_bitset_bits; assumption|].
  split; [exact E2|]. split; [apply to_bitset_bits; assumption|].
  split; [exact E3|]. split; [apply to_bitset_bits; assumption|].
  intros i Hi.
  destruct (get_in_range a i ltac:(lia)) as [ai Hai].
  destruct (get_in_range b i ltac:(lia)) as [bi Hbi].
  exists ai, bi.
  split; [apply get_some; exact Hai|]. split; [apply get_some; exact Hbi|].
  split; [|split]; apply get_some; rewrite lookup_zip_with, Hai, Hbi; simpl;
    try reflexivity.
  destruct ai, bi; reflexivity.
Qed.

Lemma pairwise_pointwise_witness :
  (1 <= 2 /\ 4 * 2 + 1 < size_mod /\
   Z.of_nat (length [true; true]) = 2 /\ Z.of_nat (length [true; false]) = 2) /\
  exists A B, of_bitset 2 [true; true] = (Ret tt, A) /\
              of_bitset 2 [true; false] = (Ret tt, B) /\
  exists Rand Ror Rxor eand eor exor,
    op_and 2 A B = (Ret tt, Rand) /\ to_bitset 2 Rand = Ret eand /\
    op_or 2 A B = (Ret tt, Ror) /\ to_bitset 2 Ror = Ret eor /\
    op_xor 2 A B = (Ret tt, Rxor) /\ to_bitset 2 Rxor = Ret exor /\
    forall i, 0 <= i < 2 ->
      exists ai bi, get [true; true] i = Ret ai /\ get [true; false] i = Ret bi /\
        get eand i = Ret (ai && bi) /\
        get eor i = Ret (ai || bi) /\
        get exor i = Ret (negb (Bool.eqb ai bi)).
Proof.
  split; [split; [lia | split; [reflexivity | split; reflexivity]]|].
  apply (pairwise_pointwise 2 [true; true] [true; false]);
    [lia | reflexivity | reflexivity | reflexivity].
Defined.

(** C5.  For the structure built from [v]: the positions visited by the
    loop [first(), next(first()), ...] up to the sentinel [N], and the
    arguments of the callback during one [foreach1], are both the ascending
    list of the indices at which [v] is true; [first()] is [N] when no bit
    is set, and [next(p)] is [N] when no bit is set after [p]. *)
Theorem enumeration_correct N (v : bitset) :
  1 <= N -> 4 * N + 1 < size_mod -> Z.of_nat (length v) = N ->
  exists t, of_bitset N v = (Ret tt, t) /\
    first_next_sequence N t = Ret (true_indices v) /\
    foreach1 N t = Ret (true_indices v) /\
    ((forall i : Z, 0 <= i -> v !! Z.to_nat i <> Some true) -> first N t = Ret N) /\
    (forall p, 0 <= p -> p + 2 < size_mod ->
       (forall i : Z, p < i -> v !! Z.to_nat i <> Some true) ->
       next N p t = Ret N).
Proof.
  intros H1 H2 H3.
  destruct (of_bitset_valid N v H1 H2 H3) as (t & E & Hv).
  exists t. split; [exact E|].
  split; [apply first_next_sequence_ok; exact Hv|].
  split; [apply foreach1_top_ok; exact Hv|].
  split.
  - intros Hnone. rewrite (first_ok _ _ _ Hv).
    rewrite first_from_absent; [reflexivity|].
    intros i _. rewrite <- (Nat2Z.id i). apply Hnone. lia.
  - intros p Hp Hp2 Hnone. rewrite (next_top_ok _ _ _ _ Hv Hp Hp2).
    rewrite first_from_absent; [reflexivity|].
    intros i Hi. rewrite <- (Nat2Z.id i). apply Hnone. lia.
Qed.

Lemma enumeration_correct_witness :
  (1 <= 4 /\ 4 * 4 + 1 < size_mod /\
   Z.of_nat (length [false; true; false; true]) = 4) /\
  exists t, of_bitset 4 [false; true; false; true] = (Ret tt, t) /\
    first_next_sequence 4 t = Ret (true_indices [false; true; false; true]) /\
    foreach1 4 t = Ret (true_indices [false; true; false; true]) /\
    ((forall i : Z, 0 <= i -> [false; true; false; true] !! Z.to_nat i <> Some true) ->
     first 4 t = Ret 4) /\
    (forall p, 0 <= p -> p + 2 < size_mod ->
       (forall i : Z, p < i -> [false; true; false; true] !! Z.to_nat i <> Some true) ->
       next 4 p t = Ret 4).
Proof.
  split; [split; [lia | split; reflexivity]|].
  apply (enumeration_correct 4 [false; true; false; true]);
    [lia | reflexivity | reflexivity].
Defined.

(** C6 (fails on the code).  [A == B] is claimed to hold exactly when all
    positions agree, however the operands were produced.  [__equal] enters
    the right child with the range arguments swapped ([r, m + 1]), so below
    a right child it no longer recognises leaves and descends into slots
    that no node uses.  [set()] turns those slots on as well: a
    [segbitset<4>] after [set()] and one built from four true bits hold the
    same bits and compare unequal, in both directions. *)
Theorem equal_rejects_same_bits :
  let A := replicate 17 true in
  let B := [false; true; true; true; true; true; true; true; false; false;
            false; false; false; false; false; false; false] in
  set_all (empty 4) = (Ret tt, A) /\
  of_bitset 4 [true; true; true; true] = (Ret tt, B) /\
  to_bitset 4 A = Ret [true; true; true; true] /\
  to_bitset 4 B = Ret [true; true; true; true] /\
  equal 4 B A = Ret false /\ equal 4 A B = Ret false.
Proof. repeat split; reflexivity. Qed.

(** C7.  For [pos >= N], [test], [set], [reset], [flip] and the non-const
    [operator[]] throw [std::out_of_range], and the tree is exactly what it
    was before the call. *)
Theorem out_of_range_no_mutation N pos (t : bitset) value :
  N <= pos ->
  test N pos t = OutOfRange /\
  set N pos value t = (OutOfRange, t) /\
  reset N pos t = (OutOfRange, t) /\
  flip N pos t = (OutOfRange, t) /\
  index N pos t = (OutOfRange, t).
Proof.
  intros H. unfold test, set, reset, flip, index.
  rewrite (proj2 (Z.leb_le N pos) H). repeat split; reflexivity.
Qed.

Lemma out_of_range_no_mutation_witness :
  2 <= 2 /\
  test 2 2 sample2 = OutOfRange /\
  set 2 2 true sample2 = (OutOfRange, sample2) /\
  reset 2 2 sample2 = (OutOfRange, sample2) /\
  flip 2 2 sample2 = (OutOfRange, sample2) /\
  index 2 2 sample2 = (OutOfRange, sample2).
Proof.
  split; [lia|]. apply (out_of_range_no_mutation 2 2 sample2 true). lia.
Defined.

(** C8 (as stated, fails on the code).  The handle's [operator~] is claimed
    to return the value the bit had before the flip.  On an empty
    [segbitset<2>] the bit of position 0 is false and [~s[0]] returns
    true. *)
Lemma ref_not_previous_value_counterexample :
  exists x, index 2 0 (empty 2) = (Ret x, empty 2) /\
            ref_bool x (empty 2) = Ret false /\
            fst (ref_not 2 x (empty 2)) = Ret true.
Proof. exists 2. repeat split; reflexivity. Qed.

(** C8 (amended).  For every valid position [pos < N] and every structure,
    the handle's [operator~] flips the bit bound to the handle and returns
    the value the bit has after the flip, that is the negation of the
    previous value; the other bits are unchanged and the summary invariant
    is kept. *)
Theorem ref_not_returns_flipped N t bs pos x b :
  sized N t -> bits N t bs -> 0 <= pos < N ->
  index N pos t = (Ret x, t) -> bs !! Z.to_nat pos = Some b ->
  ref_bool x t = Ret b /\
  exists t', ref_not N x t = (Ret (negb b), t') /\
             bits N t' (<[Z.to_nat pos := negb b]> bs) /\
             (summary_inv N t -> summary_inv N t').
Proof.
  intros Hs Hb Hpos Hx Hbit.
  destruct (point_update_bits N t bs pos (negb b) Hs Hb Hpos)
    as (y & t' & E & By & Hy & Hp & Hs' & Hb' & Hy' & Hi').
  unfold index in Hx. rewrite (proj2 (Z.leb_gt N pos)) in Hx by lia.
  unfold lift in Hx. rewrite E in Hx. injection Hx as <-.
  rewrite Hbit in Hy. split.
  - unfold ref_bool. apply get_some. exact Hy.
  - exists t'. split; [|split; assumption].
    unfold ref_not. rewrite (bind_read _ _ _ _ Hy), bind_write by lia.
    rewrite (bind_eq _ _ _ _ _ Hp). unfold read.
    rewrite (get_some _ _ _ Hy'). reflexivity.
Qed.

Lemma ref_not_returns_flipped_witness :
  (sized 2 sample2 /\ bits 2 sample2 [true; false] /\ 0 <= 0 < 2 /\
   index 2 0 sample2 = (Ret 2, sample2) /\
   [true; false] !! Z.to_nat 0 = Some true) /\
  ref_bool 2 sample2 = Ret true /\
  exists t', ref_not 2 2 sample2 = (Ret (negb true), t') /\
             bits 2 t' (<[Z.to_nat 0 := negb true]> [true; false]) /\
             (summary_inv 2 sample2 -> summary_inv 2 t').
Proof.
  destruct sample2_valid as (Hs & Hb & Hi).
  split; [split; [exact Hs | split; [exact Hb | split; [lia | split; reflexivity]]]|].
  apply (ref_not_returns_flipped 2 sample2 [true; false] 0 2 true);
    [exact Hs | exact Hb | lia | reflexivity | reflexivity].
Defined.

(** C9 (fails on the code).  [A ^= A] is claimed to clear every bit of
    every structure [A].  [__xor_assign] returns at once where the summary
    of the right operand is off, which is sound only under the summary
    invariant, and the handle's [flip()] (the defect of C1) leaves a
    structure without it: after [segbitset<2> s; s[0].flip();] the root
    summary is off and the leaf of position 0 is on, so [s ^= s], with the
    operand aliased or an equal copy, changes nothing and position 0 stays
    on, while [none()] reports true. *)
Theorem xor_self_keeps_bit_after_handle_flip :
  let t := [false; false; true; false; false; false; false; false; false] in
  index 2 0 (empty 2) = (Ret 2, empty 2) /\
  ref_flip 2 (empty 2) = (Ret tt, t) /\
  to_bitset 2 t = Ret [true; false] /\
  xor_assign 2 This t = (Ret tt, t) /\
  xor_assign 2 (Other t) t = (Ret tt, t) /\
  test 2 0 t = Ret true /\ none t = Ret true.
Proof. repeat split; reflexivity. Qed.

(** X22.  For every structure [A] of any content, with the right operand
    either [A] itself (aliased) or an equal copy: [A &= A] and [A |= A]
    leave the observable bits unchanged and complementing twice gives back
    the bits of [A]; when [A] satisfies the summary invariant, [A ^= A]
    clears every bit and [none()] holds afterwards. *)
Theorem self_operations N t bs other :
  sized N t -> bits N t bs -> other = This \/ other = Other t ->
  (exists t', and_assign N other t = (Ret tt, t') /\ bits N t' bs) /\
  (exists t', or_assign N other t = (Ret tt, t') /\ bits N t' bs) /\
  (summary_inv N t ->
   exists t', xor_assign N other t = (Ret tt, t') /\
              bits N t' (replicate (length bs) false) /\ none t' = Ret true) /\
  (exists t1 t2, complement N t = (Ret tt, t1) /\ complement N t1 = (Ret tt, t2) /\
                 bits N t2 bs).
Proof.
  intros Hs Hb Ho. pose proof (self_operand_bits N t bs other Hs Hb Ho) as Hob.
  assert (Z.to_nat (N - 1) < depth_fuel N)%nat as Hfuel
    by (apply depth_fuel_enough; destruct Hs; lia).
  split; [|split; [|split]].
  - apply (post_bits_root N t).
    apply (and_assign_same _ _ _ _ (sized_seg _ _ Hs)); try assumption; reflexivity.
  - apply (post_bits_root N t).
    apply (or_assign_same _ _ _ _ (sized_seg _ _ Hs)); try assumption; reflexivity.
  - intros Hi. assert (valid N t bs) as Hv by (split; [|split]; assumption).
    pose proof (self_operand_valid N t bs other Hv Ho) as Hov.
    destruct (xor_assign_valid N other t bs bs Hv Hov) as (t' & E & _ & Hb' & Hi').
    rewrite zip_xor_self in Hb'. exists t'. split; [exact E|]. split; [exact Hb'|].
    unfold none. rewrite (get_some _ _ _ (inv_summary _ _ _ _ _ Hi' Hb')).
    simpl. rewrite any_of_replicate_false. reflexivity.
  - destruct (flip_all_ok N t bs Hs Hb) as (t1 & E1 & Hs1 & Hb1 & _).
    destruct (flip_all_ok N t1 _ Hs1 Hb1) as (t2 & E2 & _ & Hb2 & _).
    rewrite map_negb_negb in Hb2.
    exists t1, t2. split; [exact E1|]. split; [exact E2|]. exact Hb2.
Qed.

Lemma self_operations_witness :
  (sized 2 sample2 /\ bits 2 sample2 [true; false] /\
   (This = This \/ This = Other sample2) /\ summary_inv 2 sample2) /\
  (exists t', and_assign 2 This sample2 = (Ret tt, t') /\ bits 2 t' [true; false]) /\
  (exists t', or_assign 2 This sample2 = (Ret tt, t') /\ bits 2 t' [true; false]) /\
  (exists t', xor_assign 2 This sample2 = (Ret tt, t') /\
              bits 2 t' (replicate (length [true; false]) false) /\
              none t' = Ret true) /\
  (exists t1 t2, complement 2 sample2 = (Ret tt, t1) /\
                 complement 2 t1 = (Ret tt, t2) /\ bits 2 t2 [true; false]).
Proof.
  destruct sample2_valid as (Hs & Hb & Hi).
  split; [split; [exact Hs | split; [exact Hb | split; [left; reflexivity | exact Hi]]]|].
  destruct (self_operations 2 sample2 [true; false] This Hs Hb (or_introl eq_refl))
    as (Hand & Hor & Hxor & Hcompl).
  split; [exact Hand|]. split; [exact Hor|]. split; [exact (Hxor Hi) | exact Hcompl].
Defined.

(** C10.  [to_bitset(a)] writes every slot of [a]: whatever [a] held
    before, the result holds at each position [pos < N] the bit that
    [test(pos)] reports, and it is the vector that [to_bitset()] returns. *)
Theorem to_bitset_overwrites N (t a : bitset) :
  sized N t -> Z.of_nat (length a) = N ->
  exists bs, to_bitset_into N t a = Ret bs /\ to_bitset N t = Ret bs /\
    Z.of_nat (length bs) = N /\
    forall pos, 0 <= pos < N ->
      exists b, test N pos t = Ret b /\ get bs pos = Ret b.
Proof.
  intros Hs Ha. destruct (sized_bits _ _ Hs) as [bs Hb].
  exists bs. split; [apply to_bitset_into_ok; assumption|].
  split; [apply to_bitset_bits; assumption|].
  split; [apply (bits_length N t); [destruct Hs; lia | exact Hb]|].
  intros pos Hpos. destruct (test_bits N t bs pos Hs Hb Hpos) as (b & E & Hl).
  exists b. split; [exact E | apply get_some; exact Hl].
Qed.

Lemma to_bitset_overwrites_witness :
  (sized 2 sample2 /\ Z.of_nat (length [true; true]) = 2) /\
  exists bs, to_bitset_into 2 sample2 [true; true] = Ret bs /\
    to_bitset 2 sample2 = Ret bs /\
    Z.of_nat (length bs) = 2 /\
    forall pos, 0 <= pos < 2 ->
      exists b, test 2 pos sample2 = Ret b /\ get bs pos = Ret b.
Proof.
  split; [split; [exact (proj1 sample2_valid) | reflexivity]|].
  apply (to_bitset_overwrites 2 sample2 [true; true]);
    [exact (proj1 sample2_valid) | reflexivity].
Defined.

(** * Further properties of the code *)

(** ** Export and the vocabulary *)

Lemma export_bits N t bs : sized N t -> to_bitset N t = Ret bs -> bits N t bs.
Proof.
  intros Hs He. destruct (sized_bits _ _ Hs) as [bs' Hb].
  rewrite (to_bitset_bits _ _ _ Hs Hb) in He. injection He as <-. exact Hb.
Qed.

Lemma in_order_valid N t bs : in_order N t bs <-> valid N t bs.
Proof.
  split.
  - intros (Hs & Hi & He). split; [exact Hs|]. split; [|exact Hi].
    apply export_bits; assumption.
  - intros (Hs & Hb & Hi). split; [exact Hs|]. split; [exact Hi|].
    apply to_bitset_bits; assumption.
Qed.

Lemma in_order_length N t bs : in_order N t bs -> Z.of_nat (length bs) = N.
Proof.
  intros H. apply in_order_valid in H as ((H1 & _) & Hb & _).
  apply (bits_length N t); assumption.
Qed.

Lemma sample2_in_order : in_order 2 sample2 [true; false].
Proof. apply in_order_valid. exact sample2_valid. Qed.

Lemma sample2b_in_order : in_order 2 sample2b [true; true].
Proof.
  apply in_order_valid.
  destruct (of_bitset_valid 2 [true; true]) as (t & E & Hv);
    [lia | reflexivity | reflexivity |].
  assert (of_bitset 2 [true; true] = (Ret tt, sample2b)) as E' by reflexivity.
  rewrite E' in E. congruence.
Qed.

(** ** Counting *)

Lemma true_from_length p q bs : length (true_from p bs) = length (true_from q bs).
Proof.
  revert p q. induction bs as [|b bs IH]; intros p q; [reflexivity|].
  simpl. destruct b; simpl; [f_equal|]; apply IH.
Qed.

Lemma ones_app bs cs : ones (bs ++ cs) = ones bs + ones cs.
Proof.
  unfold ones, true_indices. rewrite true_from_app, length_app.
  rewrite (true_from_length _ 0 cs). lia.
Qed.

Lemma ones_bounds bs : 0 <= ones bs <= Z.of_nat (length bs).
Proof.
  unfold ones, true_indices. split; [lia|]. apply inj_le. generalize 0 as p.
  induction bs as [|b bs IH]; intros p; simpl; [lia|].
  specialize (IH (p + 1)). destruct b; simpl; lia.
Qed.

Lemma ones_none bs : any_of bs = false -> ones bs = 0.
Proof. intros H. unfold ones, true_indices. rewrite true_from_none by exact H. reflexivity. Qed.

Lemma ones_any bs : any_of bs = (0 <? ones bs).
Proof.
  induction bs as [|b bs IH]; [reflexivity|].
  change (b :: bs) with ([b] ++ bs). rewrite any_of_app, ones_app, IH.
  pose proof (ones_bounds bs). destruct b; simpl.
  - change (ones [true]) with 1. symmetry. apply Z.ltb_lt. lia.
  - change (ones [false]) with 0. reflexivity.
Qed.

Lemma ones_all bs : forallb id bs = (ones bs =? Z.of_nat (length bs)).
Proof.
  induction bs as [|b bs IH]; [reflexivity|].
  change (b :: bs) with ([b] ++ bs). rewrite forallb_app, ones_app, IH, length_app.
  pose proof (ones_bounds bs). destruct b; simpl forallb; simpl length.
  - change (ones [true]) with 1. simpl andb.
    destruct (Z.eqb_spec (ones bs) (Z.of_nat (length bs)));
      symmetry; [apply Z.eqb_eq | apply Z.eqb_neq]; lia.
  - change (ones [false]) with 0. simpl andb. symmetry. apply Z.eqb_neq. lia.
Qed.

Lemma count_ok cap l r x :
  seg cap l r x ->
  forall fuel (t : bitset) bs, (Z.to_nat (r - l) < fuel)%nat ->
  leaves t l r x bs -> inv t l r x ->
  __count fuel l r x t = Ret (ones bs).
Proof.
  induction 1 as [l x Hl Hl2 Hx | l r x Hlr Hr Hx Hx2 Hs1 IH1 Hs2 IH2];
    intros fuel t bs Hfuel Hbs Hi; (destruct fuel as [|fuel]; [lia|]); simpl;
    rewrite (get_some _ _ _ (inv_summary _ _ _ _ _ Hi Hbs)); simpl;
    (destruct (any_of bs) eqn:Hany; simpl;
     [| rewrite ones_none by assumption; reflexivity]).
  - rewrite Z.eqb_refl.
    inversion Hbs as [l' x' b Hb | ]; [|lia]. subst l' x' bs.
    unfold any_of in Hany. simpl in Hany. rewrite orb_false_r in Hany. subst b.
    reflexivity.
  - pose proof (mid_bounds l r ltac:(lia)) as Hm.
    rewrite (proj2 (Z.eqb_neq l r)) by lia.
    rewrite mid_small, incr_small, ls_small, rs_small by lia.
    inversion Hbs as [ | l' r' x' bl br _ Hbl Hbr]; [lia|]. subst l' r' x' bs.
    inversion Hi as [ | l' r' x' a0 b0 _ Hil Hir _ _ _]; [lia|]. subst l' r' x'.
    rewrite (IH1 fuel t bl) by (lia || assumption). simpl.
    rewrite (IH2 fuel t br) by (lia || assumption). simpl.
    rewrite ones_app. f_equal. apply wrap_small.
    pose proof (ones_bounds bl). pose proof (ones_bounds br).
    pose proof (leaves_length _ _ _ _ _ Hbl). pose proof (leaves_length _ _ _ _ _ Hbr).
    lia.
Qed.

Lemma all_off_not_all bs : bs <> [] -> any_of bs = false -> forallb id bs = false.
Proof.
  destruct bs as [|b bs]; [congruence|]. intros _ H.
  unfold any_of in H. simpl in H. apply orb_false_iff in H as [-> _]. reflexivity.
Qed.

Lemma all_ok cap l r x :
  seg cap l r x ->
  forall fuel (t : bitset) bs, (Z.to_nat (r - l) < fuel)%nat ->
  leaves t l r x bs -> inv t l r x ->
  __all fuel l r x t = Ret (forallb id bs).
Proof.
  induction 1 as [l x Hl Hl2 Hx | l r x Hlr Hr Hx Hx2 Hs1 IH1 Hs2 IH2];
    intros fuel t bs Hfuel Hbs Hi; (destruct fuel as [|fuel]; [lia|]); simpl;
    pose proof (inv_summary _ _ _ _ _ Hi Hbs) as Hsum;
    rewrite (get_some _ _ _ Hsum); simpl;
    assert (bs <> []) as Hne
      by (intros ->; apply leaves_length in Hbs; simpl in Hbs; lia);
    (destruct (any_of bs) eqn:Hany; simpl;
     [| rewrite all_off_not_all by assumption; reflexivity]).
  - rewrite Z.eqb_refl.
    inversion Hbs as [l' x' b Hb | ]; [|lia]. subst l' x' bs.
    unfold any_of in Hany. simpl in Hany. rewrite orb_false_r in Hany. subst b.
    reflexivity.
  - pose proof (mid_bounds l r ltac:(lia)) as Hm.
    rewrite (proj2 (Z.eqb_neq l r)) by lia.
    rewrite mid_small, incr_small, ls_small, rs_small by lia.
    inversion Hbs as [ | l' r' x' bl br _ Hbl Hbr]; [lia|]. subst l' r' x' bs.
    inversion Hi as [ | l' r' x' a0 b0 _ Hil Hir _ _ _]; [lia|]. subst l' r' x'.
    rewrite (IH1 fuel t bl) by (lia || assumption). simpl.
    rewrite forallb_app. destruct (forallb id bl); simpl; [|reflexivity].
    apply IH2; (lia || assumption).
Qed.

Lemma count_valid N t bs : valid N t bs -> count N t = Ret (ones bs).
Proof.
  intros (Hs & Hb & Hi). unfold count.
  apply (count_ok _ _ _ _ (sized_seg _ _ Hs)); try assumption.
  apply depth_fuel_enough. destruct Hs; lia.
Qed.

Lemma all_valid N t bs : valid N t bs -> all N t = Ret (forallb id bs).
Proof.
  intros (Hs & Hb & Hi). unfold all.
  apply (all_ok _ _ _ _ (sized_seg _ _ Hs)); try assumption.
  apply depth_fuel_enough. destruct Hs; lia.
Qed.

Lemma any_valid N t bs : valid N t bs -> any t = Ret (any_of bs).
Proof.
  intros (Hs & Hb & Hi). unfold any.
  apply get_some. exact (inv_summary _ _ _ _ _ Hi Hb).
Qed.

(** ** Writing one leaf *)

Lemma insert_not_under z y (t : bitset) b :
  0 <= y -> ~ under z y -> same_under z t (<[Z.to_nat y := b]> t).
Proof.
  intros Hy Hn i Hi. apply list_lookup_insert_ne. intros E. apply Hn.
  rewrite <- (Z2Nat.id y Hy), E. exact Hi.
Qed.

(** Overwriting the leaf slot of [pos] replaces exactly the bit of [pos]. *)
Lemma leaf_set_bits cap l r x :
  seg cap l r x ->
  forall pos (t : bitset) bs b ffuel,
  l <= pos <= r -> (Z.to_nat (r - l) < ffuel)%nat ->
  Z.of_nat (length t) = cap -> leaves t l r x bs ->
  exists y, __find ffuel pos l r x = Ret y /\ under x y /\ 1 <= y < cap /\
            leaves (<[Z.to_nat y := b]> t) l r x (<[Z.to_nat (pos - l) := b]> bs).
Proof.
  induction 1 as [l x Hl Hl2 Hx | l r x Hlr Hr Hx Hx2 Hs1 IH1 Hs2 IH2];
    intros pos t bs b ffuel Hpos Hfuel Hlen Hbs;
    (destruct ffuel as [|ffuel]; [lia|]); simpl.
  - rewrite Z.eqb_refl. exists x.
    inversion Hbs as [l' x' b0 Hb0 | ]; [|lia]. subst l' x' bs.
    replace (pos - l) with 0 by lia. simpl.
    split; [reflexivity|]. split; [apply under_refl|]. split; [lia|].
    apply leaves_leaf. apply list_lookup_insert_eq. lia.
  - pose proof (mid_bounds l r ltac:(lia)) as Hm.
    rewrite (proj2 (Z.eqb_neq l r)) by lia.
    rewrite mid_small, incr_small, ls_small, rs_small by lia.
    inversion Hbs as [ | l' r' x' bl br _ Hbl Hbr]; [lia|]. subst l' r' x' bs.
    pose proof (leaves_length _ _ _ _ _ Hbl) as [_ Hll].
    destruct (Z.leb_spec pos ((l + r) / 2)) as [Hle|Hgt].
    + destruct (IH1 pos t bl b ffuel ltac:(lia) ltac:(lia) Hlen Hbl)
        as (y & E & U & By & L).
      exists y. split; [exact E|]. split; [auto with seg|]. split; [exact By|].
      rewrite insert_app_l by lia. apply leaves_node; [lia | exact L |].
      eapply leaves_same; [lia | | exact Hbr].
      apply insert_not_under; [lia|]. intros Hr'.
      exact (under_disjoint x y ltac:(lia) U Hr').
    + destruct (IH2 pos t br b ffuel ltac:(lia) ltac:(lia) Hlen Hbr)
        as (y & E & U & By & L).
      exists y. split; [exact E|]. split; [auto with seg|]. split; [exact By|].
      replace (Z.to_nat (pos - l))
        with (length bl + Z.to_nat (pos - ((l + r) / 2 + 1)))%nat by lia.
      rewrite insert_app_r. apply leaves_node; [lia | | exact L].
      eapply leaves_same; [lia | | exact Hbl].
      apply insert_not_under; [lia|]. intros Hl'.
      exact (under_disjoint x y ltac:(lia) Hl' U).
Qed.

Lemma leaf_set_root N (t : bitset) bs pos b :
  sized N t -> bits N t bs -> 0 <= pos < N ->
  exists y, __find (depth_fuel N) (incr pos) 1 N 1 = Ret y /\
            1 <= y < Z.of_nat (length t) /\
            t !! Z.to_nat y = bs !! Z.to_nat pos /\
            bits N (<[Z.to_nat y := b]> t) (<[Z.to_nat pos := b]> bs).
Proof.
  intros Hs Hb Hpos. pose proof Hs as (H1 & H2 & H3).
  rewrite incr_small by lia.
  destruct (leaf_set_bits _ _ _ _ (sized_seg _ _ Hs) (pos + 1) t bs b (depth_fuel N)
              ltac:(lia) (depth_fuel_enough N H1) eq_refl Hb) as (y & E & _ & By & L).
  destruct (find_ok _ _ _ _ (sized_seg _ _ Hs) (pos + 1) (depth_fuel N)
              ltac:(lia) (depth_fuel_enough N H1)) as (y' & E' & _ & _ & Hleaf).
  assert (y' = y) as -> by congruence.
  replace (pos + 1 - 1) with pos in * by lia.
  exists y. split; [exact E|]. split; [exact By|]. split; [|exact L].
  apply (Hleaf t bs Hb).
Qed.

(** ** Vectors *)

Lemma ones_replicate_true n : ones (replicate n true) = Z.of_nat n.
Proof.
  induction n as [|n IH]; [reflexivity|].
  change (replicate (S n) true) with ([true] ++ replicate n true).
  rewrite ones_app, IH. change (ones [true]) with 1. lia.
Qed.

Lemma ones_replicate_false n : ones (replicate n false) = 0.
Proof. apply ones_none. apply any_of_replicate_false. Qed.

Lemma forallb_replicate_true n : forallb id (replicate n true) = true.
Proof. induction n as [|n IH]; [reflexivity|]. exact IH. Qed.

Lemma ones_negb bs : ones (map negb bs) = Z.of_nat (length bs) - ones bs.
Proof.
  induction bs as [|b bs IH]; [reflexivity|].
  change (b :: bs) with ([b] ++ bs). rewrite map_app, !ones_app, IH, length_app.
  destruct b; simpl length; simpl map.
  - change (ones [false]) with 0. change (ones [true]) with 1. lia.
  - change (ones [false]) with 0. change (ones [true]) with 1. lia.
Qed.

Lemma valid_test N t bs pos b :
  valid N t bs -> 0 <= pos < N -> bs !! Z.to_nat pos = Some b ->
  test N pos t = Ret b.
Proof.
  intros (Hs & Hb & _) Hpos Hbit.
  destruct (test_bits N t bs pos Hs Hb Hpos) as (b' & E & Hb').
  rewrite E. congruence.
Qed.

(** ** Cardinality *)

(** X1.  On a structure in order, [count()] returns the number of set
    bits: the length of the ascending list of indices at which the export
    is true. *)
Theorem count_is_number_of_set_bits N t bs :
  in_order N t bs ->
  count N t = Ret (Z.of_nat (length (true_indices bs))).
Proof. intros H. apply in_order_valid in H. exact (count_valid N t bs H). Qed.

Lemma count_is_number_of_set_bits_witness :
  in_order 2 sample2 [true; false] /\
  count 2 sample2 = Ret (Z.of_nat (length (true_indices [true; false]))).
Proof.
  split; [exact sample2_in_order|].
  apply (count_is_number_of_set_bits 2 sample2 [true; false]). exact sample2_in_order.
Defined.

(** X2.  On a structure in order, [all()] returns true exactly when every
    bit of the export is true. *)
Theorem all_is_conjunction N t bs :
  in_order N t bs -> all N t = Ret (forallb id bs).
Proof. intros H. apply in_order_valid in H. exact (all_valid N t bs H). Qed.

Lemma all_is_conjunction_witness :
  in_order 2 sample2b [true; true] /\
  all 2 sample2b = Ret (forallb id [true; true]).
Proof.
  split; [exact sample2b_in_order|].
  apply (all_is_conjunction 2 sample2b [true; true]). exact sample2b_in_order.
Defined.

(** X3.  Cardinality consistency on a structure in order: with [c] the
    result of [count()], [0 <= c <= N], [any()] is [c > 0], [none()] is
    [c == 0] and [all()] is [c == N]. *)
Theorem cardinality_consistent N t bs :
  in_order N t bs ->
  exists c, count N t = Ret c /\ 0 <= c <= N /\
            any t = Ret (0 <? c) /\ none t = Ret (c =? 0) /\
            all N t = Ret (c =? N).
Proof.
  intros H. pose proof (in_order_length _ _ _ H) as Hlen.
  apply in_order_valid in H. pose proof (ones_bounds bs) as Hb.
  exists (ones bs). split; [exact (count_valid N t bs H)|]. split; [lia|].
  pose proof (any_valid N t bs H) as Hany. rewrite ones_any in Hany.
  split; [exact Hany|]. split.
  - unfold none. unfold any in Hany. rewrite Hany. simpl. f_equal.
    destruct (Z.ltb_spec 0 (ones bs)); symmetry;
      [apply Z.eqb_neq | apply Z.eqb_eq]; simpl; lia.
  - rewrite (all_valid N t bs H), ones_all, Hlen. reflexivity.
Qed.

Lemma cardinality_consistent_witness :
  in_order 2 sample2 [true; false] /\
  exists c, count 2 sample2 = Ret c /\ 0 <= c <= 2 /\
            any sample2 = Ret (0 <? c) /\ none sample2 = Ret (c =? 0) /\
            all 2 sample2 = Ret (c =? 2).
Proof.
  split; [exact sample2_in_order|].
  apply (cardinality_consistent 2 sample2 [true; false]). exact sample2_in_order.
Defined.

(** ** Point mutation *)

Lemma point_write_export N (t : bitset) bs pos b :
  sized N t -> to_bitset N t = Ret bs -> 0 <= pos < N ->
  exists y t',
    __find (depth_fuel N) (incr pos) 1 N 1 = Ret y /\
    1 <= y < Z.of_nat (length t) /\
    t !! Z.to_nat y = bs !! Z.to_nat pos /\
    __pushup_to_root (S (Z.to_nat (capacity N))) (parent y) (<[Z.to_nat y := b]> t)
      = (Ret tt, t') /\
    sized N t' /\ to_bitset N t' = Ret (<[Z.to_nat pos := b]> bs) /\
    test N pos t' = Ret b /\
    (summary_inv N t -> summary_inv N t').
Proof.
  intros Hs He Hpos. pose proof (export_bits _ _ _ Hs He) as Hb.
  pose proof (bits_length N t bs ltac:(destruct Hs; assumption) Hb) as Hlen.
  destruct (point_update_bits N t bs pos b Hs Hb Hpos)
    as (y & t' & E & By & Hy & Hp & Hs' & Hb' & _ & Hi').
  exists y, t'. repeat (split; [assumption|]).
  split; [apply to_bitset_bits; assumption|]. split; [|exact Hi'].
  destruct (test_bits N t' _ pos Hs' Hb' Hpos) as (b' & Et & Hbit).
  rewrite Et. f_equal. rewrite list_lookup_insert_eq in Hbit by lia. congruence.
Qed.

(** X4.  For [pos < N], on a structure of any content, [set(pos, value)]
    returns normally whatever [value] is; afterwards position [pos] is on
    and every other bit of the export is as before.  The summary invariant
    is kept if it held. *)
Theorem set_turns_on N t bs pos value :
  sized N t -> to_bitset N t = Ret bs -> 0 <= pos < N ->
  exists t', set N pos value t = (Ret tt, t') /\
             sized N t' /\ to_bitset N t' = Ret (<[Z.to_nat pos := true]> bs) /\
             test N pos t' = Ret true /\
             (summary_inv N t -> summary_inv N t').
Proof.
  intros Hs He Hpos.
  destruct (point_write_export N t bs pos true Hs He Hpos)
    as (y & t' & E & By & Hy & Hp & Hrest).
  exists t'. split; [|exact Hrest].
  unfold set. rewrite (proj2 (Z.leb_gt N pos)) by lia.
  rewrite (lift_find_eq _ _ _ _ _ E), bind_write by lia. exact Hp.
Qed.

Lemma set_turns_on_witness :
  (sized 2 sample2 /\ to_bitset 2 sample2 = Ret [true; false] /\ 0 <= 1 < 2) /\
  exists t', set 2 1 false sample2 = (Ret tt, t') /\
             sized 2 t' /\
             to_bitset 2 t' = Ret (<[Z.to_nat 1 := true]> [true; false]) /\
             test 2 1 t' = Ret true /\
             (summary_inv 2 sample2 -> summary_inv 2 t').
Proof.
  split; [split; [exact (proj1 sample2_valid) | split; [reflexivity | lia]]|].
  apply (set_turns_on 2 sample2 [true; false] 1 false);
    [exact (proj1 sample2_valid) | reflexivity | lia].
Defined.

(** X5.  For [pos < N], on a structure of any content, [reset(pos)] turns
    position [pos] off and leaves every other bit of the export as before.
    The summary invariant is kept if it held. *)
Theorem reset_turns_off N t bs pos :
  sized N t -> to_bitset N t = Ret bs -> 0 <= pos < N ->
  exists t', reset N pos t = (Ret tt, t') /\
             sized N t' /\ to_bitset N t' = Ret (<[Z.to_nat pos := false]> bs) /\
             test N pos t' = Ret false /\
             (summary_inv N t -> summary_inv N t').
Proof.
  intros Hs He Hpos.
  destruct (point_write_export N t bs pos false Hs He Hpos)
    as (y & t' & E & By & Hy & Hp & Hrest).
  exists t'. split; [|exact Hrest].
  unfold reset. rewrite (proj2 (Z.leb_gt N pos)) by lia.
  rewrite (lift_find_eq _ _ _ _ _ E), bind_write by lia. exact Hp.
Qed.

Lemma reset_turns_off_witness :
  (sized 2 sample2 /\ to_bitset 2 sample2 = Ret [true; false] /\ 0 <= 0 < 2) /\
  exists t', reset 2 0 sample2 = (Ret tt, t') /\
             sized 2 t' /\
             to_bitset 2 t' = Ret (<[Z.to_nat 0 := false]> [true; false]) /\
             test 2 0 t' = Ret false /\
             (summary_inv 2 sample2 -> summary_inv 2 t').
Proof.
  split; [split; [exact (proj1 sample2_valid) | split; [reflexivity | lia]]|].
  apply (reset_turns_off 2 sample2 [true; false] 0);
    [exact (proj1 sample2_valid) | reflexivity | lia].
Defined.

Lemma flip_pos_export N t bs pos b :
  sized N t -> to_bitset N t = Ret bs -> 0 <= pos < N ->
  bs !! Z.to_nat pos = Some b ->
  exists t', flip N pos t = (Ret tt, t') /\
             sized N t' /\ to_bitset N t' = Ret (<[Z.to_nat pos := negb b]> bs) /\
             test N pos t' = Ret (negb b) /\
             (summary_inv N t -> summary_inv N t').
Proof.
  intros Hs He Hpos Hbit.
  destruct (point_write_export N t bs pos (negb b) Hs He Hpos)
    as (y & t' & E & By & Hy & Hp & Hrest).
  exists t'. split; [|exact Hrest].
  unfold flip. rewrite (proj2 (Z.leb_gt N pos)) by lia. rewrite Hbit in Hy.
  rewrite (lift_find_eq _ _ _ _ _ E), (bind_read _ _ _ _ Hy), bind_write by lia.
  exact Hp.
Qed.

(** X6.  For [pos < N], on a structure of any content, [flip(pos)] negates
    the bit of [pos] and nothing else in the export, and a second
    [flip(pos)] gives back the original export.  The summary invariant is
    kept if it held. *)
Theorem flip_pos_negates N t bs pos :
  sized N t -> to_bitset N t = Ret bs -> 0 <= pos < N ->
  exists b t' t'',
    bs !! Z.to_nat pos = Some b /\
    flip N pos t = (Ret tt, t') /\
    to_bitset N t' = Ret (<[Z.to_nat pos := negb b]> bs) /\
    test N pos t' = Ret (negb b) /\
    flip N pos t' = (Ret tt, t'') /\ to_bitset N t'' = Ret bs /\
    (summary_inv N t -> summary_inv N t' /\ summary_inv N t'').
Proof.
  intros Hs He Hpos. pose proof (export_bits _ _ _ Hs He) as Hb.
  pose proof (bits_length N t bs ltac:(destruct Hs; assumption) Hb) as Hlen.
  destruct (bits_lookup N t bs pos ltac:(destruct Hs; lia) Hb Hpos) as [b Hbit].
  destruct (flip_pos_export N t bs pos b Hs He Hpos Hbit)
    as (t' & E & Hs' & He' & Ht' & Hi').
  assert (<[Z.to_nat pos := negb b]> bs !! Z.to_nat pos = Some (negb b)) as Hbit'
    by (apply list_lookup_insert_eq; lia).
  destruct (flip_pos_export N t' _ pos (negb b) Hs' He' Hpos Hbit')
    as (t'' & E' & Hs'' & He'' & _ & Hi'').
  rewrite list_insert_insert_eq, negb_involutive in He''.
  rewrite list_insert_id in He'' by exact Hbit.
  exists b, t', t''. repeat (split; [assumption|]). auto.
Qed.

Lemma flip_pos_negates_witness :
  (sized 2 sample2 /\ to_bitset 2 sample2 = Ret [true; false] /\ 0 <= 1 < 2) /\
  exists b t' t'',
    [true; false] !! Z.to_nat 1 = Some b /\
    flip 2 1 sample2 = (Ret tt, t') /\
    to_bitset 2 t' = Ret (<[Z.to_nat 1 := negb b]> [true; false]) /\
    test 2 1 t' = Ret (negb b) /\
    flip 2 1 t' = (Ret tt, t'') /\ to_bitset 2 t'' = Ret [true; false] /\
    (summary_inv 2 sample2 -> summary_inv 2 t' /\ summary_inv 2 t'').
Proof.
  split; [split; [exact (proj1 sample2_valid) | split; [reflexivity | lia]]|].
  apply (flip_pos_negates 2 sample2 [true; false] 1);
    [exact (proj1 sample2_valid) | reflexivity | lia].
Defined.

(** ** Whole-structure mutation *)

(** X7.  [set()] on a structure of any content, summaries in place or not,
    yields a structure in order with every bit on: [all()] is true and
    [count()] is [N]. *)
Theorem set_all_fills N t :
  sized N t ->
  exists t', set_all t = (Ret tt, t') /\
             in_order N t' (replicate (Z.to_nat N) true) /\
             all N t' = Ret true /\ count N t' = Ret N.
Proof.
  intros Hs. destruct (set_all_ok N t Hs) as (t' & E & Hv).
  exists t'. split; [exact E|]. split; [apply in_order_valid; exact Hv|].
  rewrite (all_valid _ _ _ Hv), (count_valid _ _ _ Hv).
  rewrite forallb_replicate_true, ones_replicate_true.
  destruct Hs as (H1 & _). split; [reflexivity|]. f_equal. lia.
Qed.

Lemma set_all_fills_witness :
  sized 2 sample2 /\
  exists t', set_all sample2 = (Ret tt, t') /\
             in_order 2 t' (replicate (Z.to_nat 2) true) /\
             all 2 t' = Ret true /\ count 2 t' = Ret 2.
Proof.
  split; [exact (proj1 sample2_valid)|].
  apply (set_all_fills 2 sample2). exact (proj1 sample2_valid).
Defined.

(** X8.  [reset()] on a structure in order clears every bit and keeps the
    structure in order: [none()] is true and [count()] is 0. *)
Theorem reset_all_clears N t bs :
  in_order N t bs ->
  exists t', reset_all N t = (Ret tt, t') /\
             in_order N t' (replicate (Z.to_nat N) false) /\
             none t' = Ret true /\ count N t' = Ret 0.
Proof.
  intros H. pose proof (in_order_length _ _ _ H) as Hlen.
  apply in_order_valid in H.
  destruct (reset_all_ok N t bs H) as (t' & E & Hv).
  replace (length bs) with (Z.to_nat N) in Hv by lia.
  exists t'. split; [exact E|]. split; [apply in_order_valid; exact Hv|].
  rewrite (count_valid _ _ _ Hv), ones_replicate_false.
  split; [|reflexivity].
  pose proof (any_valid _ _ _ Hv) as Hany. unfold any in Hany.
  unfold none. rewrite Hany, any_of_replicate_false. reflexivity.
Qed.

Lemma reset_all_clears_witness :
  in_order 2 sample2 [true; false] /\
  exists t', reset_all 2 sample2 = (Ret tt, t') /\
             in_order 2 t' (replicate (Z.to_nat 2) false) /\
             none t' = Ret true /\ count 2 t' = Ret 0.
Proof.
  split; [exact sample2_in_order|].
  apply (reset_all_clears 2 sample2 [true; false]). exact sample2_in_order.
Defined.

(** X9.  [flip()], and so [operator~] on its copy, negates every bit of the
    export and recomputes every summary: the result is in order even when
    the summaries of the operand were not, and its [count()] is [N] minus
    the number of bits that were set. *)
Theorem flip_all_negates N t bs :
  sized N t -> to_bitset N t = Ret bs ->
  exists t', flip_all N t = (Ret tt, t') /\ complement N t = (Ret tt, t') /\
             in_order N t' (map negb bs) /\
             count N t' = Ret (N - Z.of_nat (length (true_indices bs))).
Proof.
  intros Hs He. pose proof (export_bits _ _ _ Hs He) as Hb.
  destruct (flip_all_ok N t bs Hs Hb) as (t' & E & Hv).
  exists t'. split; [exact E|]. split; [exact E|].
  split; [apply in_order_valid; exact Hv|].
  rewrite (count_valid _ _ _ Hv), ones_negb.
  rewrite (bits_length N t bs) by (destruct Hs; assumption). reflexivity.
Qed.

Lemma flip_all_negates_witness :
  (sized 2 sample2 /\ to_bitset 2 sample2 = Ret [true; false]) /\
  exists t', flip_all 2 sample2 = (Ret tt, t') /\ complement 2 sample2 = (Ret tt, t') /\
             in_order 2 t' (map negb [true; false]) /\
             count 2 t' = Ret (2 - Z.of_nat (length (true_indices [true; false]))).
Proof.
  split; [split; [exact (proj1 sample2_valid) | reflexivity]|].
  apply (flip_all_negates 2 sample2 [true; false]);
    [exact (proj1 sample2_valid) | reflexivity].
Defined.

(** ** The reference handle *)

Lemma index_find N pos (t : bitset) y :
  0 <= pos < N -> __find (depth_fuel N) (incr pos) 1 N 1 = Ret y ->
  index N pos t = (Ret y, t).
Proof.
  intros Hpos E. unfold index. rewrite (proj2 (Z.leb_gt N pos)) by lia.
  unfold lift. rewrite E. reflexivity.
Qed.

(** X10.  [s[pos] = value] through the handle stores [value] at [pos] and
    leaves the other bits of the export as before, on a structure of any
    content; the summary invariant is kept if it held.  It is the way to
    store a false bit that [set(pos, false)] is not. *)
Theorem handle_assign_stores N t bs pos value :
  sized N t -> to_bitset N t = Ret bs -> 0 <= pos < N ->
  exists x t', index N pos t = (Ret x, t) /\
               ref_assign N x value t = (Ret tt, t') /\
               sized N t' /\
               to_bitset N t' = Ret (<[Z.to_nat pos := value]> bs) /\
               test N pos t' = Ret value /\
               (summary_inv N t -> summary_inv N t').
Proof.
  intros Hs He Hpos.
  destruct (point_write_export N t bs pos value Hs He Hpos)
    as (y & t' & E & By & Hy & Hp & Hrest).
  exists y, t'. split; [apply index_find; assumption|]. split; [|exact Hrest].
  unfold ref_assign. rewrite bind_write by lia. exact Hp.
Qed.

Lemma handle_assign_stores_witness :
  (sized 2 sample2 /\ to_bitset 2 sample2 = Ret [true; false] /\ 0 <= 0 < 2) /\
  exists x t', index 2 0 sample2 = (Ret x, sample2) /\
               ref_assign 2 x false sample2 = (Ret tt, t') /\
               sized 2 t' /\
               to_bitset 2 t' = Ret (<[Z.to_nat 0 := false]> [true; false]) /\
               test 2 0 t' = Ret false /\
               (summary_inv 2 sample2 -> summary_inv 2 t').
Proof.
  split; [split; [exact (proj1 sample2_valid) | split; [reflexivity | lia]]|].
  apply (handle_assign_stores 2 sample2 [true; false] 0 false);
    [exact (proj1 sample2_valid) | reflexivity | lia].
Defined.

(** X11.  Handle-to-handle assignment [s[pos] = o[j]] reads the slot of
    the left handle in the right handle's structure, so the position [j]
    plays no part.  Within one structure the assignment changes no bit;
    from another structure [o] of the same size it stores the bit that [o]
    holds at [pos].  The structure stays in order in both cases. *)
Theorem handle_copy_assign N t bs pos :
  in_order N t bs -> 0 <= pos < N ->
  exists x, index N pos t = (Ret x, t) /\
    (exists t', ref_assign_ref N x This t = (Ret tt, t') /\ in_order N t' bs) /\
    (forall o cs c, sized N o -> to_bitset N o = Ret cs ->
       cs !! Z.to_nat pos = Some c ->
       exists t', ref_assign_ref N x (Other o) t = (Ret tt, t') /\
                  in_order N t' (<[Z.to_nat pos := c]> bs)).
Proof.
  intros H Hpos. apply in_order_valid in H. pose proof H as (Hs & Hb & Hi).
  destruct (index_ok N t bs pos H Hpos) as (x & Hx & Hfind).
  exists x. split; [exact Hx|]. split.
  - destruct (ref_assign_ref_ok N t bs pos x H Hpos Hx) as (t' & E & Hv).
    exists t'. split; [exact E | apply in_order_valid; exact Hv].
  - intros o cs c Hso Heo Hc.
    pose proof (export_bits _ _ _ Hso Heo) as Hbo.
    destruct (leaf_set_root N o cs pos c Hso Hbo Hpos) as (y & E & _ & Hy & _).
    assert (y = x) as -> by congruence.
    destruct (point_update_ok N t bs pos c Hs Hb Hi Hpos)
      as (y & t' & E' & By & _ & Hp & Hs' & Hb' & Hi').
    assert (y = x) as -> by congruence.
    exists t'. split; [|apply in_order_valid; split; [|split]; assumption].
    unfold ref_assign_ref, read_other. rewrite Hc in Hy.
    rewrite (bind_eq _ _ _ c t) by (rewrite (get_some _ _ _ Hy); reflexivity).
    rewrite bind_write by lia. exact Hp.
Qed.

Lemma handle_copy_assign_witness :
  (in_order 2 sample2 [true; false] /\ 0 <= 1 < 2) /\
  exists x, index 2 1 sample2 = (Ret x, sample2) /\
    (exists t', ref_assign_ref 2 x This sample2 = (Ret tt, t') /\
                in_order 2 t' [true; false]) /\
    (forall o cs c, sized 2 o -> to_bitset 2 o = Ret cs ->
       cs !! Z.to_nat 1 = Some c ->
       exists t', ref_assign_ref 2 x (Other o) sample2 = (Ret tt, t') /\
                  in_order 2 t' (<[Z.to_nat 1 := c]> [true; false])).
Proof.
  split; [split; [exact sample2_in_order | lia]|].
  apply (handle_copy_assign 2 sample2 [true; false] 1); [exact sample2_in_order | lia].
Defined.

(** X12.  For [pos < N], reading through the handle, [test(pos)] and the
    const [operator[]] all return the bit that the export holds at [pos];
    creating the handle changes nothing.  No assumption on the summaries. *)
Theorem handle_read_is_test N t bs pos :
  sized N t -> to_bitset N t = Ret bs -> 0 <= pos < N ->
  exists x b, index N pos t = (Ret x, t) /\ bs !! Z.to_nat pos = Some b /\
              ref_bool x t = Ret b /\ test N pos t = Ret b /\
              index_const N pos t = Ret b.
Proof.
  intros Hs He Hpos. pose proof (export_bits _ _ _ Hs He) as Hb.
  destruct (leaf_set_root N t bs pos true Hs Hb Hpos) as (y & E & By & Hy & _).
  destruct (test_bits N t bs pos Hs Hb Hpos) as (b & Et & Hbit).
  exists y, b. split; [apply index_find; assumption|]. split; [exact Hbit|].
  split; [|split; exact Et].
  unfold ref_bool. apply get_some. rewrite Hy. exact Hbit.
Qed.

Lemma handle_read_is_test_witness :
  (sized 2 sample2 /\ to_bitset 2 sample2 = Ret [true; false] /\ 0 <= 1 < 2) /\
  exists x b, index 2 1 sample2 = (Ret x, sample2) /\
              [true; false] !! Z.to_nat 1 = Some b /\
              ref_bool x sample2 = Ret b /\ test 2 1 sample2 = Ret b /\
              index_const 2 1 sample2 = Ret b.
Proof.
  split; [split; [exact (proj1 sample2_valid) | split; [reflexivity | lia]]|].
  apply (handle_read_is_test 2 sample2 [true; false] 1);
    [exact (proj1 sample2_valid) | reflexivity | lia].
Defined.

(** X13.  The handle's [flip()] negates the bit of its position in the
    export and changes no other bit and no other slot than that leaf, so
    [test(pos)] reads the negated bit afterwards (the summaries above the
    leaf are not recomputed). *)
Theorem handle_flip_negates_bit N t bs pos :
  sized N t -> to_bitset N t = Ret bs -> 0 <= pos < N ->
  exists x b t', index N pos t = (Ret x, t) /\ bs !! Z.to_nat pos = Some b /\
    ref_flip x t = (Ret tt, t') /\ t' = <[Z.to_nat x := negb b]> t /\
    sized N t' /\ to_bitset N t' = Ret (<[Z.to_nat pos := negb b]> bs) /\
    test N pos t' = Ret (negb b).
Proof.
  intros Hs He Hpos. pose proof (export_bits _ _ _ Hs He) as Hb.
  pose proof (bits_length N t bs ltac:(destruct Hs; assumption) Hb) as Hlen.
  destruct (bits_lookup N t bs pos ltac:(destruct Hs; lia) Hb Hpos) as [b Hbit].
  destruct (leaf_set_root N t bs pos (negb b) Hs Hb Hpos) as (y & E & By & Hy & L).
  rewrite Hbit in Hy.
  assert (sized N (<[Z.to_nat y := negb b]> t)) as Hs'.
  { destruct Hs as (H1 & H2 & H3). repeat split; try assumption.
    rewrite length_insert. exact H3. }
  exists y, b, (<[Z.to_nat y := negb b]> t).
  split; [apply index_find; assumption|]. split; [exact Hbit|].
  split; [|split; [reflexivity|split; [exact Hs'|split]]].
  - unfold ref_flip. rewrite (bind_read _ _ _ _ Hy). apply write_ok. lia.
  - apply to_bitset_bits; assumption.
  - destruct (test_bits N _ _ pos Hs' L Hpos) as (b' & Et & Hb').
    rewrite Et. f_equal.
    rewrite list_lookup_insert_eq in Hb' by lia. congruence.
Qed.

Lemma handle_flip_negates_bit_witness :
  (sized 2 sample2 /\ to_bitset 2 sample2 = Ret [true; false] /\ 0 <= 1 < 2) /\
  exists x b t', index 2 1 sample2 = (Ret x, sample2) /\
    [true; false] !! Z.to_nat 1 = Some b /\
    ref_flip x sample2 = (Ret tt, t') /\ t' = <[Z.to_nat x := negb b]> sample2 /\
    sized 2 t' /\ to_bitset 2 t' = Ret (<[Z.to_nat 1 := negb b]> [true; false]) /\
    test 2 1 t' = Ret (negb b).
Proof.
  split; [split; [exact (proj1 sample2_valid) | split; [reflexivity | lia]]|].
  apply (handle_flip_negates_bit 2 sample2 [true; false] 1);
    [exact (proj1 sample2_valid) | reflexivity | lia].
Defined.

(** ** The leaf of a position *)

(** X14.  For every [pos < N] the descent of [__find] ends at a slot
    between 1 and [4N], never at the unused slot 0 and never outside the
    array, and two different positions end at two different slots. *)
Theorem find_slots_distinct N pos1 pos2 :
  1 <= N -> 4 * N + 1 < size_mod -> 0 <= pos1 < N -> 0 <= pos2 < N ->
  exists y1 y2,
    __find (depth_fuel N) (incr pos1) 1 N 1 = Ret y1 /\
    __find (depth_fuel N) (incr pos2) 1 N 1 = Ret y2 /\
    1 <= y1 < capacity N /\ 1 <= y2 < capacity N /\
    (pos1 <> pos2 -> y1 <> y2).
Proof.
  intros H1 H2 Hp1 Hp2.
  destruct (empty_valid N H1 H2) as (Hs & Hb & _).
  pose proof (bits_length _ _ _ H1 Hb) as Hlen.
  assert (Z.of_nat (length (empty N)) = capacity N) as Hcap.
  { unfold empty. rewrite length_replicate. rewrite capacity_small by lia. lia. }
  destruct (leaf_set_root N (empty N) _ pos1 true Hs Hb Hp1) as (y1 & E1 & B1 & _ & L1).
  destruct (leaf_set_root N (empty N) _ pos2 true Hs Hb Hp2) as (y2 & E2 & B2 & _ & _).
  exists y1, y2. split; [exact E1|]. split; [exact E2|].
  split; [lia|]. split; [lia|].
  intros Hne Heq. subst y2.
  assert (sized N (<[Z.to_nat y1 := true]> (empty N))) as Hs'.
  { destruct Hs as (? & ? & H3). repeat split; try assumption.
    rewrite length_insert. exact H3. }
  destruct (leaf_set_root N _ _ pos2 true Hs' L1 Hp2) as (y & E & _ & Hy & _).
  assert (y = y1) as -> by congruence.
  rewrite list_lookup_insert_eq in Hy by lia.
  rewrite list_lookup_insert_ne in Hy by lia.
  rewrite lookup_replicate_2 in Hy by (rewrite length_replicate in Hlen; lia).
  discriminate.
Qed.

Lemma find_slots_distinct_witness :
  (1 <= 3 /\ 4 * 3 + 1 < size_mod /\ 0 <= 0 < 3 /\ 0 <= 2 < 3) /\
  exists y1 y2,
    __find (depth_fuel 3) (incr 0) 1 3 1 = Ret y1 /\
    __find (depth_fuel 3) (incr 2) 1 3 1 = Ret y2 /\
    1 <= y1 < capacity 3 /\ 1 <= y2 < capacity 3 /\
    (0 <> 2 -> y1 <> y2).
Proof.
  split; [split; [lia | split; [reflexivity | split; lia]]|].
  apply (find_slots_distinct 3 0 2); [lia | reflexivity | lia | lia].
Defined.

(** ** Comparison, combination, search, construction *)

(** X15.  Where the two operands are in order, [==] and [!=] decide at the
    root in two cases: if neither operand has a set bit the operands
    compare equal, and if exactly one of them has a set bit they compare
    unequal. *)
Theorem equal_decides_at_root N t bs o cs :
  in_order N t bs -> in_order N o cs ->
  (any_of bs = false -> any_of cs = false ->
   equal N o t = Ret true /\ not_equal N o t = Ret false) /\
  (any_of bs <> any_of cs ->
   equal N o t = Ret false /\ not_equal N o t = Ret true).
Proof.
  intros Ht Ho. apply in_order_valid in Ht, Ho.
  pose proof (any_valid _ _ _ Ht) as Hat. pose proof (any_valid _ _ _ Ho) as Hao.
  unfold any in Hat, Hao. unfold not_equal, equal. split.
  - intros Hb Hc. rewrite Hb in Hat. rewrite Hc in Hao.
    rewrite (equal_both_off _ o 1 N 1 t Hat Hao). split; reflexivity.
  - intros Hne.
    assert (any_of cs = negb (any_of bs)) as Hneg
      by (destruct (any_of bs) eqn:E1, (any_of cs) eqn:E2; try reflexivity;
          exfalso; apply Hne; congruence).
    rewrite Hneg in Hao.
    rewrite (equal_mismatch _ o 1 N 1 t _ Hat Hao). split; reflexivity.
Qed.

Lemma equal_decides_at_root_witness :
  (in_order 2 sample2 [true; false] /\ in_order 2 (empty 2) [false; false]) /\
  (any_of [true; false] = false -> any_of [false; false] = false ->
   equal 2 (empty 2) sample2 = Ret true /\
   not_equal 2 (empty 2) sample2 = Ret false) /\
  (any_of [true; false] <> any_of [false; false] ->
   equal 2 (empty 2) sample2 = Ret false /\
   not_equal 2 (empty 2) sample2 = Ret true).
Proof.
  assert (in_order 2 (empty 2) [false; false]) as He.
  { apply in_order_valid. apply (empty_valid 2); [lia | reflexivity]. }
  split; [split; [exact sample2_in_order | exact He]|].
  apply (equal_decides_at_root 2 sample2 [true; false] (empty 2) [false; false]);
    [exact sample2_in_order | exact He].
Defined.

(** X16.  For any two structures in order, however they were produced,
    [&=], [|=] and [^=] return normally, leave the left operand in order
    again, and its export is the pointwise AND, OR, XOR of the two
    exports. *)
Theorem pairwise_in_place N t bs o cs :
  in_order N t bs -> in_order N o cs ->
  (exists t', and_assign N (Other o) t = (Ret tt, t') /\
              in_order N t' (zip_with andb bs cs)) /\
  (exists t', or_assign N (Other o) t = (Ret tt, t') /\
              in_order N t' (zip_with orb bs cs)) /\
  (exists t', xor_assign N (Other o) t = (Ret tt, t') /\
              in_order N t' (zip_with xorb bs cs)).
Proof.
  intros Ht Ho. apply in_order_valid in Ht, Ho.
  split; [|split].
  - destruct (and_assign_valid N (Other o) t bs cs Ht Ho) as (t' & E & Hv).
    exists t'. split; [exact E | apply in_order_valid; exact Hv].
  - destruct (or_assign_valid N (Other o) t bs cs Ht Ho) as (t' & E & Hv).
    exists t'. split; [exact E | apply in_order_valid; exact Hv].
  - destruct (xor_assign_valid N (Other o) t bs cs Ht Ho) as (t' & E & Hv).
    exists t'. split; [exact E | apply in_order_valid; exact Hv].
Qed.

Lemma pairwise_in_place_witness :
  (in_order 2 sample2 [true; false] /\ in_order 2 sample2b [true; true]) /\
  (exists t', and_assign 2 (Other sample2b) sample2 = (Ret tt, t') /\
              in_order 2 t' (zip_with andb [true; false] [true; true])) /\
  (exists t', or_assign 2 (Other sample2b) sample2 = (Ret tt, t') /\
              in_order 2 t' (zip_with orb [true; false] [true; true])) /\
  (exists t', xor_assign 2 (Other sample2b) sample2 = (Ret tt, t') /\
              in_order 2 t' (zip_with xorb [true; false] [true; true])).
Proof.
  split; [split; [exact sample2_in_order | exact sample2b_in_order]|].
  apply (pairwise_in_place 2 sample2 [true; false] sample2b [true; true]);
    [exact sample2_in_order | exact sample2b_in_order].
Defined.

Lemma de_morgan_bits (bs cs : list bool) :
  map negb (zip_with andb bs cs) = zip_with orb (map negb bs) (map negb cs).
Proof.
  revert cs. induction bs as [|b bs IH]; intros [|c cs]; try reflexivity.
  simpl. rewrite IH, negb_andb. reflexivity.
Qed.

(** X17.  De Morgan through the operators: for structures [A], [B] in
    order, [~(A & B)] and [~A | ~B] return normally and export the same
    vector. *)
Theorem complement_of_and N A B bs cs :
  in_order N A bs -> in_order N B cs ->
  exists R C A' B' R',
    op_and N A B = (Ret tt, R) /\ complement N R = (Ret tt, C) /\
    complement N A = (Ret tt, A') /\ complement N B = (Ret tt, B') /\
    op_or N A' B' = (Ret tt, R') /\
    to_bitset N C = Ret (map negb (zip_with andb bs cs)) /\
    to_bitset N R' = Ret (map negb (zip_with andb bs cs)).
Proof.
  intros HA HB. apply in_order_valid in HA, HB.
  destruct (and_assign_valid N (Other B) A bs cs HA HB) as (R & ER & HsR & HbR & _).
  destruct (flip_all_ok N R _ HsR HbR) as (C & EC & HvC).
  destruct HA as (HsA & HbA & _). destruct HB as (HsB & HbB & _).
  destruct (flip_all_ok N A _ HsA HbA) as (A' & EA & HvA).
  destruct (flip_all_ok N B _ HsB HbB) as (B' & EB & HvB).
  destruct (or_assign_valid N (Other B') A' _ _ HvA HvB) as (R' & ER' & HvR').
  exists R, C, A', B', R'.
  split; [exact ER|]. split; [exact EC|]. split; [exact EA|]. split; [exact EB|].
  split; [exact ER'|].
  apply in_order_valid in HvC, HvR'.
  destruct HvC as (_ & _ & HeC). destruct HvR' as (_ & _ & HeR').
  split; [exact HeC|]. rewrite de_morgan_bits. exact HeR'.
Qed.

Lemma complement_of_and_witness :
  (in_order 2 sample2 [true; false] /\ in_order 2 sample2b [true; true]) /\
  exists R C A' B' R',
    op_and 2 sample2 sample2b = (Ret tt, R) /\ complement 2 R = (Ret tt, C) /\
    complement 2 sample2 = (Ret tt, A') /\ complement 2 sample2b = (Ret tt, B') /\
    op_or 2 A' B' = (Ret tt, R') /\
    to_bitset 2 C = Ret (map negb (zip_with andb [true; false] [true; true])) /\
    to_bitset 2 R' = Ret (map negb (zip_with andb [true; false] [true; true])).
Proof.
  split; [split; [exact sample2_in_order | exact sample2b_in_order]|].
  apply (complement_of_and 2 sample2 sample2b [true; false] [true; true]);
    [exact sample2_in_order | exact sample2b_in_order].
Defined.

Lemma first_from_spec pos q bs :
  (first_from pos q bs = 0 /\
   forall i : nat, pos <= q + Z.of_nat i -> bs !! i <> Some true) \/
  (exists i : nat, first_from pos q bs = q + Z.of_nat i /\
     pos <= q + Z.of_nat i /\ bs !! i = Some true /\
     forall j : nat, (j < i)%nat -> pos <= q + Z.of_nat j -> bs !! j <> Some true).
Proof.
  revert q. induction bs as [|b bs IH]; intros q.
  - left. split; [reflexivity|]. intros i _. discriminate.
  - simpl. destruct (b && (pos <=? q)) eqn:Hc.
    + right. exists 0%nat. apply andb_true_iff in Hc as [-> Hle].
      apply Z.leb_le in Hle.
      split; [lia|]. split; [lia|]. split; [reflexivity|]. intros j Hj. lia.
    + destruct (IH (q + 1)) as [[E Hn] | (i & E & Hle & Hb & Hn)].
      * left. split; [exact E|]. intros [|i] Hi.
        -- simpl. intros [= ->]. simpl in Hc. apply Z.leb_gt in Hc. lia.
        -- simpl. apply Hn. lia.
      * right. exists (S i). split; [lia|]. split; [lia|]. split; [exact Hb|].
        intros [|j] Hj Hj'.
        -- simpl. intros [= ->]. simpl in Hc. apply Z.leb_gt in Hc. lia.
        -- simpl. apply Hn; lia.
Qed.

Lemma found_least N bs p :
  Z.of_nat (length bs) = N -> -1 <= p ->
  least_set_after bs N p (found N (first_from (p + 2) 1 bs)).
Proof.
  intros Hlen Hp. unfold found, least_set_after.
  destruct (first_from_spec (p + 2) 1 bs) as [[E Hn] | (i & E & Hle & Hb & Hn)];
    rewrite E.
  - left. split; [reflexivity|]. intros i Hi. apply Hn. lia.
  - right. rewrite (proj2 (Z.eqb_neq (1 + Z.of_nat i) 0)) by lia.
    replace (1 + Z.of_nat i - 1) with (Z.of_nat i) by lia.
    pose proof (lookup_lt_Some _ _ _ Hb) as Hlt.
    rewrite Nat2Z.id. split; [lia|]. split; [exact Hb|].
    intros j Hj. apply Hn; lia.
Qed.

(** X18.  On a structure in order, [first()] returns the lowest set
    position, and [next(p)], for [p] below the two largest [size_t]
    values, returns the lowest set position strictly above [p]; each
    returns [N] when there is no such position. *)
Theorem first_next_least N t bs :
  in_order N t bs ->
  (exists q, first N t = Ret q /\ least_set_after bs N (-1) q) /\
  (forall p, 0 <= p -> p + 2 < size_mod ->
     exists q, next N p t = Ret q /\ least_set_after bs N p q).
Proof.
  intros H. pose proof (in_order_length _ _ _ H) as Hlen.
  apply in_order_valid in H. split.
  - eexists. split; [apply (first_ok N t bs H)|].
    exact (found_least N bs (-1) Hlen ltac:(lia)).
  - intros p Hp Hp2. eexists. split; [apply (next_top_ok N t bs p H Hp Hp2)|].
    apply found_least; [exact Hlen | lia].
Qed.

Lemma first_next_least_witness :
  in_order 2 sample2 [true; false] /\
  (exists q, first 2 sample2 = Ret q /\ least_set_after [true; false] 2 (-1) q) /\
  (forall p, 0 <= p -> p + 2 < size_mod ->
     exists q, next 2 p sample2 = Ret q /\ least_set_after [true; false] 2 p q).
Proof.
  split; [exact sample2_in_order|].
  apply (first_next_least 2 sample2 [true; false]). exact sample2_in_order.
Defined.

(** X19.  The default-constructed structure is in order with every bit
    off: [count()] is 0, [any()] is false and [first()] is the sentinel
    [N]. *)
Theorem empty_in_order N :
  1 <= N -> 4 * N + 1 < size_mod ->
  in_order N (empty N) (replicate (Z.to_nat N) false) /\
  count N (empty N) = Ret 0 /\ any (empty N) = Ret false /\
  first N (empty N) = Ret N.
Proof.
  intros H1 H2. pose proof (empty_valid N H1 H2) as Hv.
  split; [apply in_order_valid; exact Hv|].
  rewrite (count_valid _ _ _ Hv), (any_valid _ _ _ Hv), (first_ok _ _ _ Hv).
  rewrite ones_replicate_false, any_of_replicate_false.
  rewrite first_from_none by apply any_of_replicate_false.
  repeat split.
Qed.

Lemma empty_in_order_witness :
  (1 <= 5 /\ 4 * 5 + 1 < size_mod) /\
  in_order 5 (empty 5) (replicate (Z.to_nat 5) false) /\
  count 5 (empty 5) = Ret 0 /\ any (empty 5) = Ret false /\
  first 5 (empty 5) = Ret 5.
Proof.
  split; [split; [lia | reflexivity]|].
  apply (empty_in_order 5); [lia | reflexivity].
Defined.

(** ** The counting loops of the benchmark *)

Lemma count_loop_next_loop N (t : bitset) : forall fuel p cnt ps,
  next_loop fuel N t p = Ret ps ->
  count_loop fuel N t p cnt = Ret (fold_left (fun c _ => incr c) ps cnt).
Proof.
  induction fuel as [|fuel IH]; intros p cnt ps H; [discriminate|].
  simpl in *. unfold size. destruct (p =? N).
  - injection H as <-. reflexivity.
  - destruct (next N p t) as [q| | |]; try discriminate. simpl in *.
    destruct (next_loop fuel N t q) as [rest| | |] eqn:Hrest; try discriminate.
    simpl in H. injection H as <-. simpl. apply IH. exact Hrest.
Qed.

Lemma bench_dense_true_from (b : bitset) : forall p cnt,
  bench_dense b cnt = fold_left (fun c (_ : Z) => incr c) (true_from p b) cnt.
Proof.
  unfold bench_dense. induction b as [|x b IH]; intros p cnt; [reflexivity|].
  simpl. destruct x; simpl; apply IH.
Qed.

Lemma fold_incr_small (ps : list Z) : forall cnt,
  0 <= cnt -> cnt + Z.of_nat (length ps) < size_mod ->
  fold_left (fun c (_ : Z) => incr c) ps cnt = cnt + Z.of_nat (length ps).
Proof.
  induction ps as [|q ps IH]; intros cnt H0 H1; simpl in *; [lia|].
  rewrite incr_small by lia. rewrite IH by lia. lia.
Qed.

(** X20.  The three counting loops of the benchmark agree: on the
    structure built from the dense vector [b], the [first]/[next] loop and
    the [foreach1] callback leave the counter at the value the plain loop
    over [b] leaves it at, from any starting value; started at 0 that value
    is [count()]. *)
Theorem bench_loops_agree N (b : bitset) cnt :
  1 <= N -> 4 * N + 1 < size_mod -> Z.of_nat (length b) = N ->
  exists t, of_bitset N b = (Ret tt, t) /\
    bench_first_next N t cnt = Ret (bench_dense b cnt) /\
    bench_foreach N t cnt = Ret (bench_dense b cnt) /\
    count N t = Ret (bench_dense b 0).
Proof.
  intros H1 H2 H3.
  destruct (of_bitset_valid N b H1 H2 H3) as (t & E & Hv).
  exists t. split; [exact E|].
  pose proof (first_next_sequence_ok N t b Hv) as Hseq.
  unfold first_next_sequence in Hseq. unfold bench_first_next.
  rewrite (first_ok _ _ _ Hv) in *. cbn [obind] in Hseq. cbn [obind].
  split; [|split].
  - rewrite (count_loop_next_loop N t _ _ cnt _ Hseq).
    unfold true_indices. rewrite <- bench_dense_true_from. reflexivity.
  - unfold bench_foreach. rewrite (foreach1_top_ok _ _ _ Hv). simpl.
    unfold true_indices. rewrite <- bench_dense_true_from. reflexivity.
  - rewrite (count_valid _ _ _ Hv). f_equal.
    rewrite (bench_dense_true_from b 0 0).
    pose proof (ones_bounds b) as Hb. unfold ones, true_indices in Hb.
    rewrite fold_incr_small by lia. reflexivity.
Qed.

Lemma bench_loops_agree_witness :
  (1 <= 3 /\ 4 * 3 + 1 < size_mod /\ Z.of_nat (length [true; false; true]) = 3) /\
  exists t, of_bitset 3 [true; false; true] = (Ret tt, t) /\
    bench_first_next 3 t 7 = Ret (bench_dense [true; false; true] 7) /\
    bench_foreach 3 t 7 = Ret (bench_dense [true; false; true] 7) /\
    count 3 t = Ret (bench_dense [true; false; true] 0).
Proof.
  split; [split; [lia | split; reflexivity]|].
  apply (bench_loops_agree 3 [true; false; true] 7); [lia | reflexivity | reflexivity].
Defined.

(** ** Enumeration after any history *)

(** X21.  On every structure in order, however it was produced, one
    [foreach1] traversal and the [first]/[next] loop both visit, in
    ascending order and once each, exactly the positions at which [test]
    returns true. *)
Theorem enumeration_in_order N t bs :
  in_order N t bs ->
  foreach1 N t = Ret (true_indices bs) /\
  first_next_sequence N t = Ret (true_indices bs) /\
  StronglySorted Z.lt (true_indices bs) /\
  (forall pos, 0 <= pos < N -> (pos ∈ true_indices bs <-> test N pos t = Ret true)).
Proof.
  intros H. apply in_order_valid in H.
  split; [exact (foreach1_top_ok N t bs H)|].
  split; [exact (first_next_sequence_ok N t bs H)|].
  split; [apply true_from_sorted|].
  intros pos Hpos. rewrite true_indices_spec.
  destruct H as (Hs & Hb & _).
  destruct (test_bits N t bs pos Hs Hb Hpos) as (b & E & Hbit).
  rewrite E, Hbit. split.
  - intros [_ [= ->]]. reflexivity.
  - intros [= ->]. split; [lia | reflexivity].
Qed.

Lemma enumeration_in_order_witness :
  in_order 2 sample2 [true; false] /\
  foreach1 2 sample2 = Ret (true_indices [true; false]) /\
  first_next_sequence 2 sample2 = Ret (true_indices [true; false]) /\
  StronglySorted Z.lt (true_indices [true; false]) /\
  (forall pos, 0 <= pos < 2 ->
     (pos ∈ true_indices [true; false] <-> test 2 pos sample2 = Ret true)).
Proof.
  split; [exact sample2_in_order|].
  apply (enumeration_in_order 2 sample2 [true; false]). exact sample2_in_order.
Defined.
